(** * NuxtImageFallback: the URL helpers and the fallback controller

    A shallow embedding of [NuxtImageFallback.vue] and of the two helpers of
    [helpers/image] it ships with ([makeResizedImageUrl], [makeResizedSrcSet]).

    - JavaScript strings are [string]s; the string built-ins the code calls
      ([lastIndexOf], [slice], [substring], [join]) are written out with
      their treatment of negative and out-of-range indices.
    - JavaScript numbers are integer-valued and modelled as [Z]; a number in
      a template literal is its decimal numeral ([pretty]).  An absent
      property of an object ([undefined]) is [None].
    - The [Map] [urlCache] is a [gmap string bool]; arrays are lists; the
      [Set] of [[...new Set(urls)]] is a list in insertion order.
    - The refs of the component and the console make up the [State]; every
      function of the component is a function on [State]. *)

From stdpp Require Import gmap strings list pretty.
From Equations.Prop Require Import Equations Logic.
From Stdlib Require Import ZArith Ascii.

Local Open Scope Z_scope.

(** ** JavaScript built-ins used by the source *)

Module Js.

(** Prefix of at most [n] characters. *)
Fixpoint str_take (n : nat) (s : string) : string :=
  match n, s with
  | O, _ => EmptyString
  | S _, EmptyString => EmptyString
  | S n', String a s' => String a (str_take n' s')
  end.

(** What is left after the first [n] characters. *)
Fixpoint str_drop (n : nat) (s : string) : string :=
  match n, s with
  | O, _ => s
  | S _, EmptyString => EmptyString
  | S n', String _ s' => str_drop n' s'
  end.

Definition str_len (s : string) : Z := Z.of_nat (String.length s).

(** Does the character occur in the string? *)
Fixpoint contains (c : ascii) (s : string) : bool :=
  match s with
  | EmptyString => false
  | String a s' => Ascii.eqb a c || contains c s'
  end.

(** [s.lastIndexOf(c)] for a one-character search string: the greatest
    index holding [c], and [-1] when there is none. *)
Fixpoint lastIndexOf (c : ascii) (s : string) : Z :=
  match s with
  | EmptyString => -1
  | String a s' =>
      let r := lastIndexOf c s' in
      if 0 <=? r then r + 1
      else if Ascii.eqb a c then 0 else -1
  end.

(** The relative index of [String.prototype.slice]: a negative index
    counts from the end, and everything is clamped to [0 .. len]. *)
Definition relIndex (len i : Z) : Z :=
  if i <? 0 then Z.max (len + i) 0 else Z.min i len.

(** [s.slice(start, end)]. *)
Definition slice (s : string) (start end_ : Z) : string :=
  let len := str_len s in
  let from := relIndex len start in
  let to := relIndex len end_ in
  let span := Z.max (to - from) 0 in
  str_take (Z.to_nat span) (str_drop (Z.to_nat from) s).

(** [s.slice(start)]: the end defaults to the length. *)
Definition slice_from (s : string) (start : Z) : string :=
  slice s start (str_len s).

(** [s.substring(start, end)]: negative indices count as [0], indices are
    clamped to the length, and the two are swapped when out of order. *)
Definition substring (s : string) (start end_ : Z) : string :=
  let len := str_len s in
  let finalStart := Z.min (Z.max start 0) len in
  let finalEnd := Z.min (Z.max end_ 0) len in
  let from := Z.min finalStart finalEnd in
  let to := Z.max finalStart finalEnd in
  str_take (Z.to_nat (to - from)) (str_drop (Z.to_nat from) s).

(** Truthiness of a possibly absent number: [undefined] and [0] are
    falsy. *)
Definition truthy_num (o : option Z) : bool :=
  match o with
  | Some z => negb (z =? 0)
  | None => false
  end.

(** Truthiness of a string: only the empty string is falsy. *)
Definition truthy_str (s : string) : bool :=
  match s with
  | EmptyString => false
  | String _ _ => true
  end.

(** Truthiness of a possibly absent string. *)
Definition truthy_ostr (o : option string) : bool :=
  match o with
  | Some s => truthy_str s
  | None => false
  end.

(** [a || b] where [a] may be absent and [b] is a number. *)
Definition num_or (a : option Z) (b : Z) : Z :=
  match a with
  | Some z => if z =? 0 then b else z
  | None => b
  end.

(** [a || b] where [a] may be absent and [b] is a string. *)
Definition ostr_or (a : option string) (b : string) : string :=
  match a with
  | Some s => if truthy_str s then s else b
  | None => b
  end.

(** [a || b] on two strings. *)
Definition str_or (a b : string) : string :=
  if truthy_str a then a else b.

(** [arr.push(x)]. *)
Definition push {A} (arr : list A) (x : A) : list A := arr ++ [x].

(** [arr.join(sep)]: the loop of the standard, which puts the separator
    in front of every element but the first. *)
Fixpoint join_from (sep : string) (R : string) (rest : list string) : string :=
  match rest with
  | [] => R
  | x :: rest' => join_from sep (R +:+ sep +:+ x) rest'
  end.

Definition join (sep : string) (arr : list string) : string :=
  match arr with
  | [] => EmptyString
  | x :: rest => join_from sep x rest
  end.

(** [set.add(x)] on a [Set] kept as the list of its values in insertion
    order: a value already present is not added again. *)
Definition Set_add (set : list string) (x : string) : list string :=
  if decide (x ∈ set) then set else set ++ [x].

(** [[...new Set(arr)]]: the values of [arr] are added one by one, and the
    spread lists the set in insertion order. *)
Definition spread_new_Set (arr : list string) : list string :=
  foldl Set_add [] arr.

End Js.

(** ** helpers/image *)

Module Image.
Import Js.

(** [makeResizedImageUrl({ src, w, h, dens, ext })]. *)
Definition makeResizedImageUrl
    (src : string) (w h dens : option Z) (ext : option string) : string :=
  let indexOfLastDot := lastIndexOf "." src in
  let baseUrl := slice src 0 indexOfLastDot in
  let sizes :=
    match w, h with
    | Some w', Some h' =>
        if truthy_num w && truthy_num h
        then "__" +:+ pretty w' +:+ "x" +:+ pretty h'
        else ""
    | _, _ => ""
    end in
  let extension :=
    match ext with
    | Some e =>
        if truthy_str e then "." +:+ e
        else slice src indexOfLastDot (str_len src)
    | None => slice src indexOfLastDot (str_len src)
    end in
  let densityString :=
    match dens with
    | Some d => if truthy_num dens then " " +:+ pretty d +:+ "x" else ""
    | None => ""
    end in
  baseUrl +:+ sizes +:+ extension +:+ densityString.

(** An element of the [sizes] array: every property may be absent. *)
Record Size := {
  size_w : option Z;
  size_h : option Z;
  size_dens : option Z;
  size_ext : option string
}.

(** [makeResizedSrcSet(src, sizes)]: each element is spread into the
    argument object next to [src]. *)
Definition makeResizedSrcSet (src : string) (sizes : list Size) : string :=
  join ", "
    (map (fun size =>
            makeResizedImageUrl src
              (size_w size) (size_h size) (size_dens size) (size_ext size))
         sizes).

End Image.

(** ** The component: NuxtImageFallback.vue *)

Module Fallback.
Import Js Image.

(** The props of the component, after Vue has filled in the defaults
    ([w], [h]: 0, [ext]: "webp", [sizes]: [], [loading]: "lazy"). *)
Record Props := {
  alt : string;
  src : string;
  w : Z;
  h : Z;
  ext : string;
  sizes : list Size;
  loading : string
}.

(** What the component writes on the console. *)
Inductive ConsoleCall :=
| console_warn (msg : string)
| console_error (msg : string) (urls : list string)
| console_info (msg : string).

(** The computed [srcWithExt]. *)
Definition srcWithExt (props : Props) : string :=
  let indexOfLastDot := lastIndexOf "." (src props) in
  let baseUrl := slice (src props) 0 indexOfLastDot in
  let extension :=
    if truthy_str (ext props) then "." +:+ ext props
    else slice_from (src props) indexOfLastDot in
  baseUrl +:+ extension.

(** The body of the [forEach] callback of [fallbackUrls]: the URL pushed
    for one element of [sizes]. *)
Definition sizeUrl (props : Props) (size : Size) : string :=
  let extToUse := str_or (ostr_or (size_ext size) (ext props)) "webp" in
  let baseUrl := substring (src props) 0 (lastIndexOf "." (src props)) in
  let urlWithExt := baseUrl +:+ "." +:+ extToUse in
  makeResizedImageUrl urlWithExt
    (Some (num_or (size_w size) (w props)))
    (Some (num_or (size_h size) (h props)))
    None None.

(** The computed [fallbackUrls]: the array [urls] is filled by three
    groups of [push], then passed through a [Set]. *)
Definition fallbackUrls (props : Props) : list string :=
  let urls := [] in
  let urls :=
    push urls
      (makeResizedImageUrl (srcWithExt props)
         (Some (w props)) (Some (h props)) None None) in
  let urls :=
    if (0 <? length (sizes props))%nat
    then foldl (fun urls size => push urls (sizeUrl props size)) urls (sizes props)
    else urls in
  let urls := push urls (srcWithExt props) in
  spread_new_Set urls.

(** The props, the three refs, the cache and the console. *)
Record State := {
  props : Props;
  currentIndex : nat;
  imageKey : nat;
  currentSrc : string;
  urlCache : gmap string bool;
  console : list ConsoleCall
}.

(** [initializeImage]: [fallbackUrls.value[0]] is [undefined] on an empty
    array, and [|| ''] replaces a falsy value by the empty string. *)
Definition initializeImage (s : State) : State :=
  {| props := props s;
     currentIndex := 0;
     imageKey := S (imageKey s);
     currentSrc := ostr_or (fallbackUrls (props s) !! 0%nat) "";
     urlCache := urlCache s;
     console := console s |}.

(** [urlCache.has(url) && !urlCache.get(url)]. *)
Definition knownBad (cache : gmap string bool) (url : string) : bool :=
  match cache !! url with
  | Some _ => true
  | None => false
  end
  && negb (match cache !! url with
           | Some b => b
           | None => false
           end).

(** The first statements of [handleError], up to [currentIndex.value++]:
    the failed URL is cached as bad, a warning is written, the index
    moves on. *)
Definition recordFailure (s : State) : State :=
  let failedUrl := currentSrc s in
  {| props := props s;
     currentIndex := S (currentIndex s);
     imageKey := imageKey s;
     currentSrc := currentSrc s;
     urlCache := <[failedUrl := false]> (urlCache s);
     console := console s ++ [console_warn ("ImgFallbackResizer: " +:+ failedUrl)] |}.

(** The branch of [handleError] taken when the index has left the array:
    an error is written and the function returns. *)
Definition allFailed (s : State) : State :=
  {| props := props s;
     currentIndex := currentIndex s;
     imageKey := imageKey s;
     currentSrc := currentSrc s;
     urlCache := urlCache s;
     console :=
       console s ++
       [console_error "ImgFallbackResizer: All urls failed:" (fallbackUrls (props s))] |}.

(** The last statements of [handleError]: the next URL is shown. *)
Definition tryNext (s : State) (nextUrl : string) : State :=
  {| props := props s;
     currentIndex := currentIndex s;
     imageKey := S (imageKey s);
     currentSrc := nextUrl;
     urlCache := urlCache s;
     console :=
       console s ++
       [console_info ("ImgFallbackResizer: Trying to load: " +:+ nextUrl)] |}.

(** [handleError].  The function calls itself when the next URL is known
    to be bad; each call moves the index one step closer to the end of
    [fallbackUrls], which is why the recursion ends.  In the branch that
    reads [fallbackUrls.value[currentIndex.value]] the index is in range
    (the read is [Some nextUrl]); the empty string stands for the
    [undefined] of an out-of-range read, which cannot occur there. *)
Equations? handleError (s : State) : State
  by wf (length (fallbackUrls (props s)) - currentIndex s)%nat lt :=
  handleError s
    with inspect (bool_decide
                    (length (fallbackUrls (props s))
                       ≤ currentIndex (recordFailure s))%nat) := {
    | exist _ true _ := allFailed (recordFailure s)
    | exist _ false Hlt
        with knownBad (urlCache (recordFailure s))
               (default "" (fallbackUrls (props s) !! currentIndex (recordFailure s))) := {
        | true := handleError (recordFailure s)
        | false :=
            tryNext (recordFailure s)
              (default "" (fallbackUrls (props s) !! currentIndex (recordFailure s))) } }.
Proof.
  apply bool_decide_eq_false in Hlt. simpl in *. lia.
Qed.

(** The values watched by the component. *)
Definition watched (p : Props) : string * string * Z * Z :=
  (src p, ext p, w p, h p).

Definition setProps (p : Props) (s : State) : State :=
  {| props := p;
     currentIndex := currentIndex s;
     imageKey := imageKey s;
     currentSrc := currentSrc s;
     urlCache := urlCache s;
     console := console s |}.

(** The host passes new props: the watcher runs [initializeImage] when
    one of [src], [ext], [w], [h] has changed. *)
Definition updateProps (p : Props) (s : State) : State :=
  if decide (watched p = watched (props s))
  then setProps p s
  else initializeImage (setProps p s).

(** Creation of the component: the refs hold 0, 0 and '', the cache is
    empty, and the watcher, being [immediate], runs once. *)
Definition setup (p : Props) : State :=
  initializeImage
    {| props := p;
       currentIndex := 0;
       imageKey := 0;
       currentSrc := "";
       urlCache := ∅;
       console := [] |}.

(** The two calls of the controller: [initialize] with a request, which
    is the watcher's [initializeImage] under the new props, and a load
    failure reported by the image, which is [handleError].  A change of
    [sizes], [alt] or [loading] alone is not watched and starts no call; it
    is [updateProps] with equal watched values. *)
Inductive Call :=
| initialize (request : Props)
| onLoadFailure.

Definition call (s : State) (c : Call) : State :=
  match c with
  | initialize request => initializeImage (setProps request s)
  | onLoadFailure => handleError s
  end.

Definition run (s : State) (calls : list Call) : State :=
  foldl call s calls.

(** The states of a component: created for some props, then driven by any
    sequence of calls. *)
Definition reachable (s : State) : Prop :=
  ∃ p calls, s = run (setup p) calls.

End Fallback.

(** ** The vocabulary of the specification *)

Module Spec.
Import Js Image Fallback.

(** Removal of duplicates that keeps the first occurrence of every string. *)
Fixpoint dedup_first (l : list string) : list string :=
  match l with
  | [] => []
  | x :: l' => x :: filter (λ y, y ≠ x) (dedup_first l')
  end.

(** The candidates in the order the specification gives, duplicates
    included: the primary resized URL, one URL per element of [sizes], the
    unsized fallback. *)
Definition orderedUrls (p : Props) : list string :=
  makeResizedImageUrl (srcWithExt p) (Some (w p)) (Some (h p)) None None
  :: map (sizeUrl p) (sizes p) ++ [srcWithExt p].

Definition CandidateList (p : Props) : list string :=
  dedup_first (orderedUrls p).

(** The size tag: present when both dimensions are non-zero. *)
Definition sizeTag (w h : Z) : string :=
  if negb (w =? 0) && negb (h =? 0)
  then "__" +:+ pretty w +:+ "x" +:+ pretty h
  else "".

(** The extension, as the code chooses it: [ext] when it is given and not
    empty, the original extension otherwise. *)
Definition extension (ext : option string) (originalExt : string) : string :=
  match ext with
  | Some (String a e) => "." +:+ String a e
  | _ => "." +:+ originalExt
  end.

(** The density suffix, as the code chooses it: present when [dens] is
    given and not zero. *)
Definition densitySuffix (dens : option Z) : string :=
  match dens with
  | Some d => if d =? 0 then "" else " " +:+ pretty d +:+ "x"
  | None => ""
  end.

(** The extension and the density suffix, read as the specification words
    them: chosen by whether the argument is provided at all. *)
Definition extension_if_provided (ext : option string) (originalExt : string) : string :=
  match ext with
  | Some e => "." +:+ e
  | None => "." +:+ originalExt
  end.

Definition densitySuffix_if_provided (dens : option Z) : string :=
  match dens with
  | Some d => " " +:+ pretty d +:+ "x"
  | None => ""
  end.

(** The three signals of the controller. *)
Definition warning (url : string) : ConsoleCall :=
  console_warn ("ImgFallbackResizer: " +:+ url).

Definition trying (url : string) : ConsoleCall :=
  console_info ("ImgFallbackResizer: Trying to load: " +:+ url).

Definition allFailedError (urls : list string) : ConsoleCall :=
  console_error "ImgFallbackResizer: All urls failed:" urls.

Definition isError (c : ConsoleCall) : bool :=
  match c with
  | console_error _ _ => true
  | _ => false
  end.

(** What a call has written on the console: the entries of [s'] after
    those of [s]. *)
Definition emitted (s s' : State) : list ConsoleCall :=
  drop (length (console s)) (console s').

(** The candidate list of a state, and its terminal condition. *)
Definition candidates (s : State) : list string :=
  fallbackUrls (props s).

Definition terminal (s : State) : Prop :=
  (length (candidates s) ≤ currentIndex s)%nat.

(** The cache a call of [handleError] works with: the failed URL is recorded
    before anything is looked up. *)
Definition cacheAfterFailure (s : State) : gmap string bool :=
  <[currentSrc s := false]> (urlCache s).

(** A URL recorded as failed. *)
Definition bad (cache : gmap string bool) (url : string) : Prop :=
  cache !! url = Some false.

#[global] Instance bad_dec (cache : gmap string bool) (url : string) :
  Decision (bad cache url).
Proof. unfold bad. apply _. Defined.

(** What links the refs of a state: while the index is in range the URL
    shown is the candidate at the index, and past the range the URL shown
    has been recorded as failed. *)
Definition consistent (s : State) : Prop :=
  ((currentIndex s < length (candidates s))%nat →
   candidates s !! currentIndex s = Some (currentSrc s))
  ∧ (terminal s → bad (urlCache s) (currentSrc s)).

(** The number of error signals among console entries. *)
Definition errors (l : list ConsoleCall) : nat :=
  length (filter (λ c, isError c = true) l).

(** The split the specification describes: a string at its last dot, into
    the base and the original extension without its dot; [None] when the
    string has no dot. *)
Fixpoint splitAtLastDot (s : string) : option (string * string) :=
  match s with
  | EmptyString => None
  | String a s' =>
      match splitAtLastDot s' with
      | Some (base, originalExt) => Some (String a base, originalExt)
      | None => if Ascii.eqb a "." then Some (EmptyString, s') else None
      end
  end.

(** [buildResizedUrl] in the words of the specification: base, size tag,
    extension, density suffix; without a dot the base is the whole string
    and there is no original extension. *)
Definition buildResizedUrl (s : string) (w h : Z) (ext : option string)
    (dens : option Z) : string :=
  match splitAtLastDot s with
  | Some (base, originalExt) =>
      base +:+ sizeTag w h +:+ extension ext originalExt +:+ densitySuffix dens
  | None =>
      s +:+ sizeTag w h
      +:+ match ext with
          | Some (String a e) => "." +:+ String a e
          | _ => ""
          end
      +:+ densitySuffix dens
  end.

(** The source with its extension swapped: replaced by [ext] when [ext] is
    not empty, left as it is otherwise. *)
Definition swapExtension (s ext : string) : string :=
  match splitAtLastDot s with
  | Some (base, originalExt) => base +:+ extension (Some ext) originalExt
  | None =>
      s +:+ match ext with
            | String a e => "." +:+ String a e
            | EmptyString => ""
            end
  end.

(** The candidates as the specification lists them, duplicates included:
    the source with its extension swapped and then sized to [w] x [h]; for
    each element of [sizes], in order, the source resized to the element's
    width or [w], its height or [h], with the extension of the element or
    [ext] or "webp"; the source with its extension swapped. *)
Definition specifiedUrls (p : Props) : list string :=
  [buildResizedUrl (swapExtension (src p) (ext p)) (w p) (h p) None None]
  ++ map (λ size,
            buildResizedUrl (src p)
              (num_or (size_w size) (w p))
              (num_or (size_h size) (h p))
              (Some (str_or (ostr_or (size_ext size) (ext p)) "webp"))
              None)
         (sizes p)
  ++ [swapExtension (src p) (ext p)].

Definition specifiedCandidateList (p : Props) : list string :=
  dedup_first (specifiedUrls p).

End Spec.

Import Js Image Fallback Spec.

(** A request and the states it leads to, used as concrete inputs. *)
Definition photo : Props :=
  {| alt := ""; src := "/img/photo.jpg"; w := 100; h := 50; ext := "webp";
     sizes := []; loading := "lazy" |}.

(** The same request with one more size, which gives three candidates. *)
Definition photo2 : Props :=
  {| alt := ""; src := "/img/photo.jpg"; w := 100; h := 50; ext := "webp";
     sizes := [ {| size_w := Some 200; size_h := Some 100;
                   size_dens := None; size_ext := None |} ];
     loading := "lazy" |}.

(** One failure: the last candidate of [photo] is shown. *)
Definition photoLast : State := run (setup photo) [onLoadFailure].

(** Two failures: every candidate of [photo] has failed. *)
Definition photoExhausted : State :=
  run (setup photo) [onLoadFailure; onLoadFailure].

(** Two candidates of [photo2] have failed, then the request is initialized
    again: the first candidate is shown, and the next one is known to be
    bad. *)
Definition photo2Again : State :=
  run (setup photo2) [onLoadFailure; onLoadFailure; initialize photo2].

(** The example request with one size whose extension has a dot of its own. *)
Definition photoTarGz : Props :=
  {| alt := ""; src := "/img/photo.jpg"; w := 100; h := 50; ext := "webp";
     sizes := [ {| size_w := None; size_h := None;
                   size_dens := None; size_ext := Some "tar.gz" |} ];
     loading := "lazy" |}.

(** The example request with a source that has no dot. *)
Definition photoDotless : Props :=
  {| alt := ""; src := "/img/photo"; w := 100; h := 50; ext := "webp";
     sizes := []; loading := "lazy" |}.

(** * Properties *)

(** ** Strings *)

Section Strings.

(** The built-ins on the indices the code passes them. *)
Example lastIndexOf_examples :
  lastIndexOf "." "/img/photo.jpg" = 10
  ∧ lastIndexOf "." "a.b.c" = 3
  ∧ lastIndexOf "." "abc" = -1.
Proof. repeat split. Qed.

Example slice_examples :
  slice "/img/photo.jpg" 0 10 = "/img/photo"
  ∧ slice_from "/img/photo.jpg" 10 = ".jpg"
  ∧ slice "abc" 0 (-1) = "ab"
  ∧ slice_from "abc" (-1) = "c"
  ∧ substring "abc" 0 (-1) = ""
  ∧ substring "/img/photo.jpg" 0 10 = "/img/photo".
Proof. repeat split. Qed.

Lemma str_take_app (a b : string) :
  str_take (String.length a) (a +:+ b) = a.
Proof. induction a as [|c a IH]; simpl; [by destruct b | by rewrite IH]. Qed.

Lemma str_drop_app (a b : string) :
  str_drop (String.length a) (a +:+ b) = b.
Proof. induction a as [|c a IH]; simpl; done. Qed.

Lemma str_take_all (n : nat) (s : string) :
  (String.length s ≤ n)%nat → str_take n s = s.
Proof.
  revert n. induction s as [|c s IH]; intros [|n] Hn; simpl in *; try done; try lia.
  f_equal. apply IH. lia.
Qed.

Lemma str_length_app (a b : string) :
  String.length (a +:+ b) = (String.length a + String.length b)%nat.
Proof. induction a as [|c a IH]; simpl; [done | by rewrite IH]. Qed.

Lemma lastIndexOf_lower (c : ascii) (s : string) : -1 <= lastIndexOf c s.
Proof.
  induction s as [|a s IH]; simpl; [lia |].
  destruct (Z.leb_spec 0 (lastIndexOf c s)); [lia |].
  destruct (Ascii.eqb a c); lia.
Qed.

Lemma lastIndexOf_absent (c : ascii) (s : string) :
  contains c s = false → lastIndexOf c s = -1.
Proof.
  induction s as [|a s IH]; simpl; [done |].
  intros [Ha Hs]%orb_false_iff. rewrite (IH Hs), Ha. done.
Qed.

Lemma lastIndexOf_app_last (c : ascii) (a t : string) :
  contains c t = false →
  lastIndexOf c (a +:+ String c t) = str_len a.
Proof.
  intros Ht. unfold str_len. induction a as [|x a IH].
  - simpl. rewrite (lastIndexOf_absent _ _ Ht), Ascii.eqb_refl. done.
  - change (String x a +:+ String c t) with (String x (a +:+ String c t)).
    simpl lastIndexOf. rewrite IH.
    destruct (Z.leb_spec 0 (Z.of_nat (String.length a))); simpl String.length; lia.
Qed.

(** A string that contains the character splits at its last occurrence. *)
Lemma split_at_last (c : ascii) (s : string) :
  contains c s = true →
  ∃ a t, s = a +:+ String c t ∧ contains c t = false.
Proof.
  induction s as [|x s IH]; simpl; [done |].
  destruct (contains c s) eqn:Hs.
  - intros _. destruct IH as (a & t & -> & Ht); [done |].
    exists (String x a), t. done.
  - rewrite orb_false_r. intros ->%Ascii.eqb_eq.
    exists EmptyString, s. done.
Qed.

Lemma contains_app_last (c : ascii) (a t : string) :
  contains c (a +:+ String c t) = true.
Proof.
  induction a as [|x a IH]; simpl.
  - by rewrite Ascii.eqb_refl.
  - rewrite IH. apply orb_true_r.
Qed.

Lemma relIndex_in_range (len i : Z) :
  0 <= i <= len → relIndex len i = i.
Proof. intros Hi. unfold relIndex. destruct (Z.ltb_spec i 0); lia. Qed.

Lemma relIndex_from_end (len i : Z) :
  i < 0 → 0 <= len + i → relIndex len i = len + i.
Proof. intros Hi Hlen. unfold relIndex. destruct (Z.ltb_spec i 0); lia. Qed.

Lemma str_len_split (a t : string) (c : ascii) :
  str_len (a +:+ String c t) = str_len a + 1 + str_len t.
Proof. unfold str_len. rewrite str_length_app. simpl. lia. Qed.

Lemma str_len_nonneg (s : string) : 0 <= str_len s.
Proof. unfold str_len. lia. Qed.

(** The two slices the code takes at the last dot. *)
Lemma slice_base (a t : string) (c : ascii) :
  slice (a +:+ String c t) 0 (str_len a) = a.
Proof.
  pose proof (str_len_nonneg a). pose proof (str_len_nonneg t).
  unfold slice. rewrite str_len_split.
  rewrite !relIndex_in_range by lia.
  rewrite Z.sub_0_r, Z.max_l by lia.
  unfold str_len. rewrite Nat2Z.id. apply str_take_app.
Qed.

Lemma slice_extension (a t : string) (c : ascii) :
  slice (a +:+ String c t) (str_len a) (str_len (a +:+ String c t)) = String c t.
Proof.
  pose proof (str_len_nonneg a). pose proof (str_len_nonneg t).
  unfold slice. rewrite str_len_split.
  rewrite !relIndex_in_range by lia.
  unfold str_len at 4. rewrite Nat2Z.id, str_drop_app.
  apply str_take_all. unfold str_len in *. simpl. lia.
Qed.

Lemma substring_base (a t : string) (c : ascii) :
  substring (a +:+ String c t) 0 (str_len a) = a.
Proof.
  pose proof (str_len_nonneg a). pose proof (str_len_nonneg t).
  unfold substring. rewrite str_len_split.
  replace (Z.min (Z.max 0 0) (str_len a + 1 + str_len t)) with 0 by lia.
  replace (Z.min (Z.max (str_len a) 0) (str_len a + 1 + str_len t))
    with (str_len a) by lia.
  rewrite Z.min_l, Z.max_r by lia.
  rewrite Z.sub_0_r. unfold str_len. rewrite Nat2Z.id. apply str_take_app.
Qed.

Lemma str_app_cons (x : ascii) (a b : string) :
  String x a +:+ b = String x (a +:+ b).
Proof. reflexivity. Qed.

Lemma str_app_assoc (a b c : string) : (a +:+ b) +:+ c = a +:+ (b +:+ c).
Proof.
  induction a as [|x a IH]; [done |].
  rewrite !str_app_cons. by f_equal.
Qed.

End Strings.

(** ** The URL builder *)

Section UrlBuilder.

(** The three optional pieces of the result are chosen by truthiness tests;
    this settles a goal by going through their outcomes. *)
Ltac by_truthiness w h dens ext :=
  unfold sizeTag, extension, densitySuffix, truthy_num, truthy_str;
  destruct (w =? 0), (h =? 0), ext as [[|? ?]|];
  (destruct dens as [d|]; [destruct (d =? 0) |]); reflexivity.

(** The shape of the result once [src] is split at its last dot. *)
Lemma makeResizedImageUrl_split (base originalExt : string) (w h : Z)
    (dens : option Z) (ext : option string) :
  contains "." originalExt = false →
  makeResizedImageUrl (base +:+ "." +:+ originalExt) (Some w) (Some h) dens ext
  = base +:+ sizeTag w h +:+ extension ext originalExt +:+ densitySuffix dens.
Proof.
  intros Hext. change ("." +:+ originalExt) with (String "." originalExt).
  unfold makeResizedImageUrl.
  rewrite (lastIndexOf_app_last _ _ _ Hext), slice_base, slice_extension.
  by_truthiness w h dens ext.
Qed.

(** Without a dot the index is [-1], and [slice] counts it from the end: the
    base loses the last character of [src], which is taken as the
    extension. *)
Lemma makeResizedImageUrl_dotless (body : string) (c : ascii) (w h : Z)
    (dens : option Z) (ext : option string) :
  contains "." (body +:+ String c "") = false →
  makeResizedImageUrl (body +:+ String c "") (Some w) (Some h) dens ext
  = body +:+ sizeTag w h
    +:+ match ext with
        | Some (String a e) => "." +:+ String a e
        | _ => String c ""
        end
    +:+ densitySuffix dens.
Proof.
  intros Hno. unfold makeResizedImageUrl.
  rewrite (lastIndexOf_absent _ _ Hno).
  pose proof (str_len_nonneg body) as Hbody.
  assert (slice (body +:+ String c "") 0 (-1) = body) as ->.
  { unfold slice. rewrite str_len_split. change (str_len "") with 0.
    rewrite (relIndex_in_range _ 0), (relIndex_from_end _ (-1)) by lia.
    replace (Z.max (str_len body + 1 + 0 + -1 - 0) 0) with (str_len body) by lia.
    unfold str_len. rewrite Nat2Z.id. apply str_take_app. }
  assert (slice (body +:+ String c "") (-1) (str_len (body +:+ String c ""))
          = String c "") as ->.
  { unfold slice. rewrite str_len_split. change (str_len "") with 0.
    rewrite (relIndex_from_end _ (-1)), relIndex_in_range by lia.
    replace (str_len body + 1 + 0 + -1) with (str_len body) by lia.
    unfold str_len at 3. rewrite Nat2Z.id, str_drop_app.
    apply str_take_all. simpl. lia. }
  by_truthiness w h dens ext.
Qed.

(** [join] is the concatenation with a separator between the elements. *)
Lemma join_from_concat (sep R : string) (rest : list string) :
  join_from sep R rest
  = match rest with
    | [] => R
    | _ :: _ => R +:+ sep +:+ String.concat sep rest
    end.
Proof.
  revert R. induction rest as [|x rest IH]; intros R; [done |].
  simpl join_from. rewrite IH. destruct rest as [|y rest]; [done |].
  change (String.concat sep (x :: y :: rest))
    with (x +:+ sep +:+ String.concat sep (y :: rest)).
  by rewrite !str_app_assoc.
Qed.

Lemma join_concat (sep : string) (arr : list string) :
  join sep arr = String.concat sep arr.
Proof.
  destruct arr as [|x rest]; [done |].
  unfold join. rewrite join_from_concat. by destruct rest.
Qed.

(** C5 (as amended): for every [src] with a dot, and all [w], [h], [ext] and
    [dens], the result of [makeResizedImageUrl] is base + sizeTag +
    extension + densitySuffix, where [src] is base + "." + originalExt with
    no dot in originalExt, the size tag is "__{w}x{h}" when [w] and [h] are
    both non-zero and empty otherwise, the extension is ".{ext}" when [ext]
    is given and not empty and ".{originalExt}" otherwise, and the density
    suffix is " {dens}x" when [dens] is given and not zero and empty
    otherwise. *)
Theorem makeResizedImageUrl_shape (s : string) (w h : Z)
    (dens : option Z) (ext : option string) :
  contains "." s = true →
  ∃ base originalExt,
    s = base +:+ "." +:+ originalExt
    ∧ contains "." originalExt = false
    ∧ makeResizedImageUrl s (Some w) (Some h) dens ext
      = base +:+ sizeTag w h +:+ extension ext originalExt +:+ densitySuffix dens.
Proof.
  intros (base & originalExt & -> & Hext)%split_at_last.
  exists base, originalExt. split; [done |]. split; [done |].
  by apply makeResizedImageUrl_split.
Qed.

Lemma makeResizedImageUrl_shape_witness :
  contains "." "/a/b.png" = true
  ∧ ∃ base originalExt,
      "/a/b.png" = base +:+ "." +:+ originalExt
      ∧ contains "." originalExt = false
      ∧ makeResizedImageUrl "/a/b.png" (Some 100) (Some 100) (Some 2) (Some "avif")
        = base +:+ sizeTag 100 100 +:+ extension (Some "avif") originalExt
          +:+ densitySuffix (Some 2).
Proof.
  split; [reflexivity |].
  apply (makeResizedImageUrl_shape "/a/b.png" 100 100 (Some 2) (Some "avif")).
  reflexivity.
Defined.

(** C5 fails as stated, where the extension and the density suffix depend on
    the argument being provided: an [ext] provided as the empty string does
    not give the extension ".", and a [dens] provided as 0 does not give the
    suffix " 0x"; in both cases the code falls back as if the argument were
    absent. *)
Lemma makeResizedImageUrl_provided_counterexample :
  contains "." "/a/b.png" = true
  ∧ "/a/b.png" = "/a/b" +:+ "." +:+ "png"
  ∧ contains "." "png" = false
  ∧ makeResizedImageUrl "/a/b.png" (Some 50) (Some 50) None (Some "")
    = "/a/b__50x50.png"
  ∧ makeResizedImageUrl "/a/b.png" (Some 50) (Some 50) None (Some "")
    ≠ "/a/b" +:+ sizeTag 50 50 +:+ extension_if_provided (Some "") "png"
      +:+ densitySuffix_if_provided None
  ∧ makeResizedImageUrl "/a/b.png" (Some 50) (Some 50) (Some 0) None
    = "/a/b__50x50.png"
  ∧ makeResizedImageUrl "/a/b.png" (Some 50) (Some 50) (Some 0) None
    ≠ "/a/b" +:+ sizeTag 50 50 +:+ extension_if_provided None "png"
      +:+ densitySuffix_if_provided (Some 0).
Proof. repeat split; vm_compute; congruence. Qed.

(** C8: [makeResizedSrcSet] is the results of [makeResizedImageUrl] on the
    variants, with their [w], [h], [ext] and [dens], joined by ", "; no
    variant gives the empty string; and the example of the specification
    evaluates as it says. *)
Theorem makeResizedSrcSet_joined :
  (∀ (s : string) (variants : list Size),
     makeResizedSrcSet s variants
     = String.concat ", "
         (map (λ v, makeResizedImageUrl s (size_w v) (size_h v) (size_dens v) (size_ext v))
              variants))
  ∧ (∀ s : string, makeResizedSrcSet s [] = "")
  ∧ makeResizedSrcSet "/a/b.png"
      [ {| size_w := Some 50; size_h := Some 50; size_dens := None; size_ext := None |};
        {| size_w := Some 100; size_h := Some 100; size_dens := None;
           size_ext := Some "avif" |} ]
    = "/a/b__50x50.png, /a/b__100x100.avif".
Proof.
  split; [| split].
  - intros s variants. unfold makeResizedSrcSet. apply join_concat.
  - reflexivity.
  - vm_compute. reflexivity.
Qed.

(** C9: on a [src] without a dot the base is not the whole of [src]: the
    last character is cut off and moved behind the size tag, so the result
    does not start with [src]. *)
Theorem makeResizedImageUrl_dotless_example :
  contains "." "abc" = false
  ∧ makeResizedImageUrl "abc" (Some 10) (Some 20) None None = "ab__10x20c"
  ∧ String.prefix "abc" (makeResizedImageUrl "abc" (Some 10) (Some 20) None None) = false
  ∧ makeResizedImageUrl "abc" (Some 10) (Some 20) None (Some "webp") = "ab__10x20.webp".
Proof. repeat split; vm_compute; reflexivity. Qed.

End UrlBuilder.

(** ** The candidate list *)

Section Candidates.

Lemma dedup_first_elem_of (l : list string) (y : string) :
  y ∈ dedup_first l ↔ y ∈ l.
Proof.
  induction l as [|x l IH]; simpl; [done |].
  rewrite !elem_of_cons, list_elem_of_filter, IH.
  destruct (decide (y = x)); tauto.
Qed.

Lemma dedup_first_NoDup (l : list string) : NoDup (dedup_first l).
Proof.
  induction l as [|x l IH]; simpl; constructor.
  - rewrite list_elem_of_filter. by intros [Hne _].
  - by apply NoDup_filter.
Qed.

(** A list without duplicates is left as it is. *)
Lemma dedup_first_id (l : list string) : NoDup l → dedup_first l = l.
Proof.
  induction 1 as [|x l Hx _ IH]; simpl; [done |].
  rewrite IH. f_equal. clear IH.
  induction l as [|y l IH]; [done |].
  apply not_elem_of_cons in Hx as [Hxy Hx].
  rewrite filter_cons_True by done. f_equal. by apply IH.
Qed.

(** The [Set] built from an array, started from the values [set] it already
    holds. *)
Lemma foldl_Set_add (arr set : list string) :
  foldl Set_add set arr = set ++ filter (λ y, y ∉ set) (dedup_first arr).
Proof.
  revert set. induction arr as [|x arr IH]; intros set; simpl.
  - by rewrite app_nil_r.
  - rewrite IH. unfold Set_add. destruct (decide (x ∈ set)) as [Hin|Hnotin].
    + rewrite filter_cons_False by (intros Hx; by apply Hx).
      f_equal. rewrite list_filter_filter.
      apply list_filter_iff. intros y. split; [| by intros [Hy _]].
      intros Hy. split; [done |]. by intros ->.
    + rewrite filter_cons_True by done.
      rewrite <- app_assoc. simpl. do 2 f_equal.
      rewrite list_filter_filter.
      apply list_filter_iff. intros y. simpl.
      rewrite not_elem_of_app, list_elem_of_singleton. tauto.
Qed.

Lemma spread_new_Set_dedup (arr : list string) :
  spread_new_Set arr = dedup_first arr.
Proof.
  unfold spread_new_Set. rewrite foldl_Set_add. simpl.
  induction (dedup_first arr) as [|x l IH]; [done |].
  rewrite filter_cons_True by apply not_elem_of_nil. by f_equal.
Qed.

(** The [forEach] that pushes one URL per element is a [map]. *)
Lemma foldl_push {A} (f : A → string) (l : list A) (urls : list string) :
  foldl (λ urls x, push urls (f x)) urls l = urls ++ map f l.
Proof.
  revert urls. induction l as [|x l IH]; intros urls; simpl.
  - by rewrite app_nil_r.
  - rewrite IH. unfold push. by rewrite <- app_assoc.
Qed.

(** The array filled by [fallbackUrls], before the [Set]. *)
Lemma fallbackUrls_ordered (p : Props) :
  fallbackUrls p = spread_new_Set (orderedUrls p).
Proof.
  unfold fallbackUrls, orderedUrls. f_equal.
  assert (∀ urls : list string,
            (if (0 <? length (sizes p))%nat
             then foldl (λ urls size, push urls (sizeUrl p size)) urls (sizes p)
             else urls)
            = urls ++ map (sizeUrl p) (sizes p)) as ->.
  { intros urls. rewrite foldl_push.
    destruct (sizes p); [by rewrite app_nil_r | done]. }
  unfold push. by rewrite <- app_assoc.
Qed.

(** The first candidate is the primary resized URL. *)
Lemma fallbackUrls_head (p : Props) :
  fallbackUrls p !! 0%nat
  = Some (makeResizedImageUrl (srcWithExt p) (Some (w p)) (Some (h p)) None None).
Proof. by rewrite fallbackUrls_ordered, spread_new_Set_dedup. Qed.

(** The example request of the specification. *)
Example photo_candidates :
  fallbackUrls photo = ["/img/photo__100x50.webp"; "/img/photo.webp"].
Proof. vm_compute. reflexivity. Qed.

(** A primary URL that equals the unsized one is listed once. *)
Example unsized_candidates :
  fallbackUrls
    {| alt := ""; src := "/img/photo.jpg"; w := 0; h := 0; ext := "webp";
       sizes := []; loading := "lazy" |}
  = ["/img/photo.webp"].
Proof. vm_compute. reflexivity. Qed.

(** The array of the code and its [Set]: the URLs are pushed in the order
    primary, one per element of [sizes], unsized; later duplicates are
    removed, none is left, and the strings are the same. *)
Lemma fallbackUrls_CandidateList (p : Props) :
  fallbackUrls p = CandidateList p
  ∧ orderedUrls p
    = [makeResizedImageUrl (srcWithExt p) (Some (w p)) (Some (h p)) None None]
      ++ map (λ size,
                makeResizedImageUrl
                  (substring (src p) 0 (lastIndexOf "." (src p)) +:+ "."
                   +:+ str_or (ostr_or (size_ext size) (ext p)) "webp")
                  (Some (num_or (size_w size) (w p)))
                  (Some (num_or (size_h size) (h p)))
                  None None)
             (sizes p)
      ++ [srcWithExt p]
  ∧ NoDup (fallbackUrls p)
  ∧ (∀ url, url ∈ fallbackUrls p ↔ url ∈ orderedUrls p)
  ∧ (NoDup (orderedUrls p) → fallbackUrls p = orderedUrls p).
Proof.
  assert (fallbackUrls p = CandidateList p) as Heq.
  { rewrite fallbackUrls_ordered. apply spread_new_Set_dedup. }
  split; [done |]. split; [done |]. rewrite Heq. unfold CandidateList.
  split; [apply dedup_first_NoDup |].
  split; [intros url; apply dedup_first_elem_of | apply dedup_first_id].
Qed.

Lemma fallbackUrls_NoDup (p : Props) : NoDup (fallbackUrls p).
Proof.
  rewrite fallbackUrls_ordered, spread_new_Set_dedup. apply dedup_first_NoDup.
Qed.

Lemma fallbackUrls_nonempty (p : Props) : (1 ≤ length (fallbackUrls p))%nat.
Proof.
  rewrite fallbackUrls_ordered, spread_new_Set_dedup.
  unfold orderedUrls. simpl. lia.
Qed.

Lemma initializeImage_currentSrc (s : State) :
  fallbackUrls (props s) !! 0%nat = Some (currentSrc (initializeImage s)).
Proof.
  simpl. rewrite fallbackUrls_ordered, spread_new_Set_dedup. simpl.
  by destruct (makeResizedImageUrl _ _ _ _ _).
Qed.

(** C10: the candidate list of every request has at least one element, the
    primary resized URL, and [initializeImage] sets [currentSrc] to it: the
    read of element 0 is never [undefined]. *)
Theorem fallbackUrls_never_empty (s : State) :
  (1 ≤ length (fallbackUrls (props s)))%nat
  ∧ fallbackUrls (props s) !! 0%nat = Some (currentSrc (initializeImage s))
  ∧ currentSrc (initializeImage s)
    = makeResizedImageUrl (srcWithExt (props s))
        (Some (w (props s))) (Some (h (props s))) None None.
Proof.
  split; [apply fallbackUrls_nonempty |].
  split; [apply initializeImage_currentSrc |].
  pose proof (initializeImage_currentSrc s) as H.
  rewrite fallbackUrls_head in H. by injection H.
Qed.

End Candidates.

(** ** The controller *)

Section Controller.

(** [handleError], as one equation. *)
Lemma handleError_eq (s : State) :
  handleError s
  = if bool_decide (length (candidates s) ≤ S (currentIndex s))%nat
    then allFailed (recordFailure s)
    else
      let nextUrl := default "" (candidates s !! S (currentIndex s)) in
      if knownBad (urlCache (recordFailure s)) nextUrl
      then handleError (recordFailure s)
      else tryNext (recordFailure s) nextUrl.
Proof.
  unfold candidates.
  funelim (handleError s); simpl currentIndex in *;
    repeat match goal with
           | E : _ = true |- _ => rewrite E
           | E : _ = false |- _ => rewrite E
           end; reflexivity.
Qed.

Lemma knownBad_bad (cache : gmap string bool) (url : string) :
  knownBad cache url = true ↔ bad cache url.
Proof.
  unfold knownBad, bad. destruct (cache !! url) as [[|]|]; simpl; split; congruence.
Qed.

Lemma knownBad_not_bad (cache : gmap string bool) (url : string) :
  knownBad cache url = false ↔ ¬ bad cache url.
Proof.
  rewrite <- knownBad_bad. destruct (knownBad cache url); split; congruence.
Qed.

(** Every remaining candidate is known to be bad: the call runs through all
    of them and ends in the error branch, with one warning per step. *)
Lemma handleError_exhausted (n : nat) (s : State) :
  n = (length (candidates s) - S (currentIndex s))%nat →
  (∀ j v, candidates s !! (S (currentIndex s) + j)%nat = Some v →
          bad (cacheAfterFailure s) v) →
  handleError s
  = {| props := props s;
       currentIndex := S (currentIndex s) + n;
       imageKey := imageKey s;
       currentSrc := currentSrc s;
       urlCache := cacheAfterFailure s;
       console :=
         console s ++ replicate (S n) (warning (currentSrc s))
         ++ [allFailedError (candidates s)] |}.
Proof.
  revert s. induction n as [|n IH]; intros s Hn Hbad; rewrite handleError_eq.
  - rewrite bool_decide_eq_true_2 by lia.
    unfold allFailed, recordFailure, cacheAfterFailure, candidates. simpl.
    f_equal; [lia | by rewrite <- app_assoc].
  - rewrite bool_decide_eq_false_2 by lia.
    destruct (lookup_lt_is_Some_2 (candidates s) (S (currentIndex s)))
      as [v Hv]; [lia |].
    rewrite Hv. simpl default. cbv zeta.
    change (urlCache (recordFailure s)) with (cacheAfterFailure s).
    assert (bad (cacheAfterFailure s) v) as Hv_bad.
    { apply (Hbad 0%nat). by rewrite Nat.add_0_r. }
    apply knownBad_bad in Hv_bad as ->.
    rewrite (IH (recordFailure s)).
    + unfold cacheAfterFailure, candidates, warning. simpl.
      rewrite insert_insert_eq. f_equal; [lia |].
      by rewrite <- app_assoc.
    + unfold candidates in *. simpl. lia.
    + intros j w Hw. unfold cacheAfterFailure. simpl. rewrite insert_insert_eq.
      apply (Hbad (S j)). unfold candidates in *. simpl in Hw.
      rewrite <- Hw. f_equal. lia.
Qed.

(** The candidate [k] places after the next one is the first that is not
    known to be bad: the call skips the [k] candidates before it and shows
    that one. *)
Lemma handleError_found (k : nat) (s : State) (u : string) :
  candidates s !! (S (currentIndex s) + k)%nat = Some u →
  ¬ bad (cacheAfterFailure s) u →
  (∀ j v, (j < k)%nat → candidates s !! (S (currentIndex s) + j)%nat = Some v →
          bad (cacheAfterFailure s) v) →
  handleError s
  = {| props := props s;
       currentIndex := S (currentIndex s) + k;
       imageKey := S (imageKey s);
       currentSrc := u;
       urlCache := cacheAfterFailure s;
       console :=
         console s ++ replicate (S k) (warning (currentSrc s)) ++ [trying u] |}.
Proof.
  revert s. induction k as [|k IH]; intros s Hu Hgood Hbad; rewrite handleError_eq;
    pose proof (lookup_lt_Some _ _ _ Hu) as Hlen;
    (rewrite bool_decide_eq_false_2 by lia).
  - rewrite Nat.add_0_r in Hu. rewrite Hu. simpl default. cbv zeta.
    change (urlCache (recordFailure s)) with (cacheAfterFailure s).
    apply knownBad_not_bad in Hgood as ->.
    unfold tryNext, recordFailure, cacheAfterFailure, trying. simpl.
    f_equal; [lia | by rewrite <- app_assoc].
  - destruct (lookup_lt_is_Some_2 (candidates s) (S (currentIndex s)))
      as [v Hv]; [lia |].
    rewrite Hv. simpl default. cbv zeta.
    change (urlCache (recordFailure s)) with (cacheAfterFailure s).
    assert (bad (cacheAfterFailure s) v) as Hv_bad.
    { apply (Hbad 0%nat); [lia | by rewrite Nat.add_0_r]. }
    apply knownBad_bad in Hv_bad as ->.
    rewrite (IH (recordFailure s)).
    + unfold cacheAfterFailure, candidates, warning. simpl.
      rewrite insert_insert_eq. f_equal; [lia |].
      by rewrite <- app_assoc.
    + unfold candidates in *. simpl. rewrite <- Hu. f_equal. lia.
    + unfold cacheAfterFailure in *. simpl. by rewrite insert_insert_eq.
    + intros j w Hj Hw. unfold cacheAfterFailure. simpl. rewrite insert_insert_eq.
      apply (Hbad (S j)); [lia |]. unfold candidates in *. simpl in Hw.
      rewrite <- Hw. f_equal. lia.
Qed.

End Controller.

(** ** The states of the controller *)

Section Reachable.

Lemma initializeImage_consistent (s : State) : consistent (initializeImage s).
Proof.
  split.
  - intros _. exact (initializeImage_currentSrc s).
  - unfold terminal, candidates. simpl.
    pose proof (fallbackUrls_nonempty (props s)). lia.
Qed.

(** [handleError] ends in one of two ways, and which one is decided by the
    candidates after the index and the cache. *)
Lemma handleError_cases (s : State) :
  (∃ k u,
     candidates s !! (S (currentIndex s) + k)%nat = Some u
     ∧ ¬ bad (cacheAfterFailure s) u
     ∧ (∀ j v, (j < k)%nat →
               candidates s !! (S (currentIndex s) + j)%nat = Some v →
               bad (cacheAfterFailure s) v)
     ∧ handleError s
       = {| props := props s;
            currentIndex := S (currentIndex s) + k;
            imageKey := S (imageKey s);
            currentSrc := u;
            urlCache := cacheAfterFailure s;
            console :=
              console s ++ replicate (S k) (warning (currentSrc s)) ++ [trying u] |})
  ∨ ((∀ j v, candidates s !! (S (currentIndex s) + j)%nat = Some v →
             bad (cacheAfterFailure s) v)
     ∧ handleError s
       = {| props := props s;
            currentIndex :=
              S (currentIndex s) + (length (candidates s) - S (currentIndex s));
            imageKey := imageKey s;
            currentSrc := currentSrc s;
            urlCache := cacheAfterFailure s;
            console :=
              console s
              ++ replicate (S (length (candidates s) - S (currentIndex s)))
                   (warning (currentSrc s))
              ++ [allFailedError (candidates s)] |}).
Proof.
  destruct (list_find (λ u, ¬ bad (cacheAfterFailure s) u)
              (drop (S (currentIndex s)) (candidates s)))
    as [[k u]|] eqn:Hfind.
  - left. apply list_find_Some in Hfind as (Hu & Hgood & Hbefore).
    rewrite lookup_drop in Hu.
    assert (∀ j v, (j < k)%nat →
                   candidates s !! (S (currentIndex s) + j)%nat = Some v →
                   bad (cacheAfterFailure s) v) as Hbad.
    { intros j v Hj Hv. apply dec_stable. apply (Hbefore j); [| done].
      by rewrite lookup_drop. }
    exists k, u. repeat split; [done .. |]. by apply handleError_found.
  - right. apply list_find_None in Hfind.
    assert (∀ j v, candidates s !! (S (currentIndex s) + j)%nat = Some v →
                   bad (cacheAfterFailure s) v) as Hbad.
    { intros j v Hv. apply dec_stable.
      rewrite Forall_lookup in Hfind. apply (Hfind j). by rewrite lookup_drop. }
    split; [done |]. by apply handleError_exhausted.
Qed.

Lemma handleError_consistent (s : State) : consistent (handleError s).
Proof.
  destruct (handleError_cases s)
    as [(k & u & Hu & _ & _ & ->) | [_ ->]]; split;
    unfold terminal, candidates in *; simpl.
  - done.
  - apply lookup_lt_Some in Hu. lia.
  - lia.
  - intros _. unfold bad, cacheAfterFailure. apply lookup_insert_eq.
Qed.

Lemma run_consistent (calls : list Call) (s : State) :
  consistent s → consistent (run s calls).
Proof.
  revert s. induction calls as [|c calls IH]; intros s Hs; [done |].
  simpl. apply IH. destruct c as [request|]; simpl.
  - apply initializeImage_consistent.
  - apply handleError_consistent.
Qed.

Lemma reachable_consistent (s : State) : reachable s → consistent s.
Proof.
  intros (p & calls & ->). apply run_consistent, initializeImage_consistent.
Qed.

(** In a reachable state that is not terminal, the URL shown is not among
    the candidates after the index, so recording its failure does not change
    what is known about them. *)
Lemma later_candidate_cache (s : State) (j : nat) (v : string) :
  reachable s →
  candidates s !! (S (currentIndex s) + j)%nat = Some v →
  v ≠ currentSrc s ∧ (bad (cacheAfterFailure s) v ↔ bad (urlCache s) v).
Proof.
  intros [Hcur _]%reachable_consistent Hv.
  pose proof (lookup_lt_Some _ _ _ Hv) as Hlen.
  assert (v ≠ currentSrc s) as Hne.
  { intros ->.
    pose proof (NoDup_lookup _ _ _ _ (fallbackUrls_NoDup (props s)) Hv
                  (Hcur ltac:(lia))). lia. }
  split; [done |]. unfold bad, cacheAfterFailure.
  by rewrite lookup_insert_ne.
Qed.

Lemma errors_warnings_then_error (n : nat) (url : string) (urls : list string) :
  errors (replicate n (warning url) ++ [allFailedError urls]) = 1%nat.
Proof.
  unfold errors. rewrite filter_app, length_app.
  induction n as [|n IH]; [done |].
  simpl replicate. by rewrite filter_cons_False.
Qed.

Lemma emitted_app (s s' : State) (l : list ConsoleCall) :
  console s' = console s ++ l → emitted s s' = l.
Proof. intros H. unfold emitted. rewrite H. apply drop_app_length. Qed.

Lemma trying_inj (u v : string) : trying u = trying v → u = v.
Proof.
  unfold trying. intros [= H]. by apply (inj (String.app _)) in H.
Qed.

Lemma trying_not_emitted (n : nat) (url u v : string) :
  u ≠ v → trying v ∉ replicate n (warning url) ++ [trying u].
Proof.
  intros Hne [Hin | Hin]%elem_of_app.
  - by apply elem_of_replicate in Hin as [? _].
  - apply list_elem_of_singleton, trying_inj in Hin. done.
Qed.

Lemma trying_not_emitted_error (n : nat) (url v : string) (urls : list string) :
  trying v ∉ replicate n (warning url) ++ [allFailedError urls].
Proof.
  intros [Hin | Hin]%elem_of_app.
  - by apply elem_of_replicate in Hin as [? _].
  - by apply list_elem_of_singleton in Hin.
Qed.

End Reachable.

(** ** The terminal state *)

Section Terminal.

(** The example run of the specification: the first candidate is shown, one
    failure shows the second, a second failure ends in the terminal state
    with the second still shown. *)
Example photo_run :
  currentSrc (setup photo) = "/img/photo__100x50.webp"
  ∧ currentSrc photoLast = "/img/photo.webp"
  ∧ currentIndex photoLast = 1%nat
  ∧ currentSrc photoExhausted = "/img/photo.webp"
  ∧ currentIndex photoExhausted = 2%nat
  ∧ imageKey photoExhausted = imageKey photoLast.
Proof. repeat split; vm_compute; reflexivity. Qed.

(** A call that skips: after a second [initialize] of [photo2] the second
    candidate is known to be bad, and a failure of the first goes to the
    third with two warnings and one announcement. *)
Example photo2_skip :
  candidates photo2Again
  = ["/img/photo__100x50.webp"; "/img/photo__200x100.webp"; "/img/photo.webp"]
  ∧ currentIndex photo2Again = 0%nat
  ∧ currentIndex (handleError photo2Again) = 2%nat
  ∧ currentSrc (handleError photo2Again) = "/img/photo.webp"
  ∧ emitted photo2Again (handleError photo2Again)
    = [warning "/img/photo__100x50.webp"; warning "/img/photo__100x50.webp";
       trying "/img/photo.webp"].
Proof. repeat split; vm_compute; reflexivity. Qed.

(** A call made in the terminal state goes straight to the error branch. *)
Lemma handleError_terminal (s : State) :
  consistent s → terminal s →
  handleError s
  = {| props := props s;
       currentIndex := S (currentIndex s);
       imageKey := imageKey s;
       currentSrc := currentSrc s;
       urlCache := urlCache s;
       console :=
         console s ++ [warning (currentSrc s); allFailedError (candidates s)] |}.
Proof.
  intros [_ Hbad] Hterm. specialize (Hbad Hterm). unfold terminal in Hterm.
  rewrite (handleError_exhausted 0 s).
  - unfold cacheAfterFailure. rewrite insert_id by done. f_equal. lia.
  - lia.
  - intros j v Hv. apply lookup_lt_Some in Hv. lia.
Qed.

(** A call made before the terminal state that ends in it: the index stops
    at the length, and the URL shown and the key are as before. *)
Lemma handleError_enters_terminal (s : State) :
  ¬ terminal s → terminal (handleError s) →
  ∃ n,
    handleError s
    = {| props := props s;
         currentIndex := length (candidates s);
         imageKey := imageKey s;
         currentSrc := currentSrc s;
         urlCache := cacheAfterFailure s;
         console :=
           console s ++ replicate (S n) (warning (currentSrc s))
           ++ [allFailedError (candidates s)] |}.
Proof.
  unfold terminal. intros Hnot Hterm.
  destruct (handleError_cases s)
    as [(k & u & Hu & _ & _ & Heq) | [_ Heq]]; rewrite Heq in Hterm |- *.
  - apply lookup_lt_Some in Hu. unfold candidates in *. simpl in Hterm. lia.
  - eexists. f_equal. lia.
Qed.

(** C1 (as amended): the call of [handleError] that takes the index to the
    length of the candidate list writes exactly one error and leaves the URL
    shown and the key as they are.  A further call in the terminal state
    leaves the URL shown, the key and the cache as they are, but it is not
    without effect: it adds one to the index and writes one more warning and
    one more error. *)
Theorem terminal_calls_repeat_the_error (s : State) :
  reachable s →
  (¬ terminal s → terminal (handleError s) →
   currentIndex (handleError s) = length (candidates s)
   ∧ errors (emitted s (handleError s)) = 1%nat
   ∧ currentSrc (handleError s) = currentSrc s
   ∧ imageKey (handleError s) = imageKey s)
  ∧ (terminal s →
     currentSrc (handleError s) = currentSrc s
     ∧ imageKey (handleError s) = imageKey s
     ∧ urlCache (handleError s) = urlCache s
     ∧ currentIndex (handleError s) = S (currentIndex s)
     ∧ emitted s (handleError s)
       = [warning (currentSrc s); allFailedError (candidates s)]).
Proof.
  intros Hs%reachable_consistent. split.
  - intros Hnot Hterm.
    destruct (handleError_enters_terminal s Hnot Hterm) as [n Heq].
    rewrite Heq. repeat split.
    rewrite (emitted_app s _
               (replicate (S n) (warning (currentSrc s))
                ++ [allFailedError (candidates s)])) by done.
    apply errors_warnings_then_error.
  - intros Hterm. rewrite (handleError_terminal s Hs Hterm). simpl.
    repeat split. by apply emitted_app.
Qed.

Lemma terminal_calls_repeat_the_error_witness :
  reachable photoExhausted
  ∧ (¬ terminal photoExhausted → terminal (handleError photoExhausted) →
     currentIndex (handleError photoExhausted) = length (candidates photoExhausted)
     ∧ errors (emitted photoExhausted (handleError photoExhausted)) = 1%nat
     ∧ currentSrc (handleError photoExhausted) = currentSrc photoExhausted
     ∧ imageKey (handleError photoExhausted) = imageKey photoExhausted)
  ∧ (terminal photoExhausted →
     currentSrc (handleError photoExhausted) = currentSrc photoExhausted
     ∧ imageKey (handleError photoExhausted) = imageKey photoExhausted
     ∧ urlCache (handleError photoExhausted) = urlCache photoExhausted
     ∧ currentIndex (handleError photoExhausted) = S (currentIndex photoExhausted)
     ∧ emitted photoExhausted (handleError photoExhausted)
       = [warning (currentSrc photoExhausted);
          allFailedError (candidates photoExhausted)]).
Proof.
  split.
  - exists photo, [onLoadFailure; onLoadFailure]. reflexivity.
  - apply (terminal_calls_repeat_the_error photoExhausted).
    exists photo, [onLoadFailure; onLoadFailure]. reflexivity.
Defined.

(** C1 fails as stated: after the two candidates of the example request have
    failed the controller is in the terminal state, and one more call of
    [handleError] changes the index and writes two more signals. *)
Lemma terminal_call_counterexample :
  reachable photoExhausted
  ∧ terminal photoExhausted
  ∧ currentIndex photoExhausted = 2%nat
  ∧ currentIndex (handleError photoExhausted) = 3%nat
  ∧ emitted photoExhausted (handleError photoExhausted)
    = [console_warn "ImgFallbackResizer: /img/photo.webp";
       console_error "ImgFallbackResizer: All urls failed:"
         ["/img/photo__100x50.webp"; "/img/photo.webp"]]
  ∧ handleError photoExhausted ≠ photoExhausted.
Proof.
  split; [exists photo, [onLoadFailure; onLoadFailure]; reflexivity |].
  split; [unfold terminal; vm_compute; lia |].
  split; [vm_compute; reflexivity |].
  split; [vm_compute; reflexivity |].
  split; [vm_compute; reflexivity |].
  intros H. apply (f_equal currentIndex) in H. vm_compute in H. discriminate.
Qed.

(** C2 (as amended): in every reachable state the index is either in range,
    and then the URL shown is the candidate at the index, or at least the
    length of the candidate list (the terminal state).  A call of
    [handleError] made before the terminal state leaves the index at most at
    the length, so the index is the length when the terminal state is
    entered; a call made in the terminal state adds one to it. *)
Theorem currentIndex_range (s : State) :
  reachable s →
  ((currentIndex s < length (candidates s))%nat ∧
   candidates s !! currentIndex s = Some (currentSrc s)
   ∨ terminal s)
  ∧ (¬ terminal s →
     (currentIndex s < currentIndex (handleError s) ≤ length (candidates s))%nat)
  ∧ (terminal s → currentIndex (handleError s) = S (currentIndex s)).
Proof.
  intros Hs%reachable_consistent. split; [| split].
  - destruct Hs as [Hcur _]. unfold terminal.
    destruct (decide (currentIndex s < length (candidates s))%nat); [left | right].
    + split; [done | by apply Hcur].
    + lia.
  - unfold terminal. intros Hnot.
    destruct (handleError_cases s)
      as [(k & u & Hu & _ & _ & ->) | [_ ->]]; simpl.
    + apply lookup_lt_Some in Hu. lia.
    + lia.
  - intros Hterm. by rewrite (handleError_terminal s Hs Hterm).
Qed.

Lemma currentIndex_range_witness :
  reachable photoLast
  ∧ ((currentIndex photoLast < length (candidates photoLast))%nat ∧
     candidates photoLast !! currentIndex photoLast = Some (currentSrc photoLast)
     ∨ terminal photoLast)
  ∧ (¬ terminal photoLast →
     (currentIndex photoLast < currentIndex (handleError photoLast)
      ≤ length (candidates photoLast))%nat)
  ∧ (terminal photoLast →
     currentIndex (handleError photoLast) = S (currentIndex photoLast)).
Proof.
  split.
  - exists photo, [onLoadFailure]. reflexivity.
  - apply (currentIndex_range photoLast).
    exists photo, [onLoadFailure]. reflexivity.
Defined.

(** C2 fails as stated: three failures on the example request, which has two
    candidates, leave the index at 3. *)
Lemma currentIndex_exceeds_counterexample :
  length (candidates (run (setup photo) [onLoadFailure; onLoadFailure; onLoadFailure]))
  = 2%nat
  ∧ currentIndex (run (setup photo) [onLoadFailure; onLoadFailure; onLoadFailure])
    = 3%nat
  ∧ ¬ (currentIndex (run (setup photo) [onLoadFailure; onLoadFailure; onLoadFailure])
       ≤ length (candidates
                   (run (setup photo) [onLoadFailure; onLoadFailure; onLoadFailure])))%nat.
Proof.
  split; [vm_compute; reflexivity |].
  split; [vm_compute; reflexivity |].
  vm_compute. lia.
Qed.

(** C7: the call of [handleError] made while the last candidate is shown
    takes the index to the length and changes neither the URL shown, which
    stays the last candidate, nor the key. *)
Theorem exhaustion_keeps_last_candidate (s : State) :
  reachable s →
  S (currentIndex s) = length (candidates s) →
  terminal (handleError s)
  ∧ currentIndex (handleError s) = length (candidates s)
  ∧ currentSrc (handleError s) = currentSrc s
  ∧ imageKey (handleError s) = imageKey s
  ∧ last (candidates s) = Some (currentSrc (handleError s)).
Proof.
  intros [Hcur _]%reachable_consistent Hlast.
  rewrite (handleError_exhausted 0 s);
    [| lia | intros j v Hv; apply lookup_lt_Some in Hv; lia].
  split; [unfold terminal, candidates in *; simpl; lia |].
  split; [simpl; lia |].
  split; [done |]. split; [done |].
  simpl currentSrc. rewrite last_lookup, <- Hlast. apply Hcur. lia.
Qed.

Lemma exhaustion_keeps_last_candidate_witness :
  reachable photoLast
  ∧ S (currentIndex photoLast) = length (candidates photoLast)
  ∧ terminal (handleError photoLast)
  ∧ currentIndex (handleError photoLast) = length (candidates photoLast)
  ∧ currentSrc (handleError photoLast) = currentSrc photoLast
  ∧ imageKey (handleError photoLast) = imageKey photoLast
  ∧ last (candidates photoLast) = Some (currentSrc (handleError photoLast)).
Proof.
  split; [exists photo, [onLoadFailure]; reflexivity |].
  split; [vm_compute; reflexivity |].
  apply (exhaustion_keeps_last_candidate photoLast).
  - exists photo, [onLoadFailure]. reflexivity.
  - vm_compute. reflexivity.
Defined.

End Terminal.

(** ** Skipping and initialization *)

Section SkipAndInitialize.

(** C4: when the candidate after the index is known to be bad, the call of
    [handleError] never shows it and writes no "Trying to load" for it.  The
    call goes on past every known-bad candidate in the same way, and either
    stops at the first candidate that is not known to be bad, which it shows
    and announces, or, when all remaining candidates are known to be bad,
    ends in the terminal state with the URL shown and the key unchanged. *)
Theorem skip_known_bad (s : State) (next : string) :
  reachable s →
  candidates s !! S (currentIndex s) = Some next →
  bad (urlCache s) next →
  currentSrc (handleError s) ≠ next
  ∧ (trying next ∉ emitted s (handleError s))
  ∧ ((∃ k u,
        (0 < k)%nat
        ∧ candidates s !! (S (currentIndex s) + k)%nat = Some u
        ∧ ¬ bad (urlCache s) u
        ∧ (∀ j v, (j < k)%nat →
                  candidates s !! (S (currentIndex s) + j)%nat = Some v →
                  bad (urlCache s) v
                  ∧ currentSrc (handleError s) ≠ v
                  ∧ (trying v ∉ emitted s (handleError s)))
        ∧ currentIndex (handleError s) = (S (currentIndex s) + k)%nat
        ∧ currentSrc (handleError s) = u
        ∧ imageKey (handleError s) = S (imageKey s)
        ∧ emitted s (handleError s)
          = replicate (S k) (warning (currentSrc s)) ++ [trying u])
     ∨ ((∀ j v, candidates s !! (S (currentIndex s) + j)%nat = Some v →
                bad (urlCache s) v
                ∧ currentSrc (handleError s) ≠ v
                ∧ (trying v ∉ emitted s (handleError s)))
        ∧ terminal (handleError s)
        ∧ currentIndex (handleError s) = length (candidates s)
        ∧ currentSrc (handleError s) = currentSrc s
        ∧ imageKey (handleError s) = imageKey s
        ∧ errors (emitted s (handleError s)) = 1%nat)).
Proof.
  intros Hs Hnext Hnext_bad.
  assert (candidates s !! (S (currentIndex s) + 0)%nat = Some next) as Hnext0
    by by rewrite Nat.add_0_r.
  destruct (handleError_cases s)
    as [(k & u & Hu & Hgood & Hbefore & Heq) | [Hall Heq]].
  - assert (¬ bad (urlCache s) u) as Hgood'.
    { intros Hb. apply Hgood. by apply (later_candidate_cache s k u Hs Hu). }
    assert (0 < k)%nat as Hk.
    { destruct k as [|k]; [| lia]. exfalso.
      rewrite Hnext0 in Hu. injection Hu as <-. done. }
    assert (emitted s (handleError s)
            = replicate (S k) (warning (currentSrc s)) ++ [trying u]) as Hem
      by (apply emitted_app; by rewrite Heq).
    assert (∀ j v, (j < k)%nat →
                   candidates s !! (S (currentIndex s) + j)%nat = Some v →
                   bad (urlCache s) v
                   ∧ currentSrc (handleError s) ≠ v
                   ∧ trying v ∉ emitted s (handleError s)) as Hskip.
    { intros j v Hj Hv.
      assert (bad (urlCache s) v) as Hv_bad
        by (apply (later_candidate_cache s j v Hs Hv); by apply (Hbefore j)).
      assert (u ≠ v) as Hne by (intros ->; done).
      split; [done |]. split; [by rewrite Heq |].
      rewrite Hem. by apply trying_not_emitted. }
    destruct (Hskip 0%nat next Hk Hnext0) as (_ & Hsrc & Htry).
    split; [done |]. split; [done |]. left. exists k, u.
    split; [done |]. split; [done |]. split; [done |].
    split; [exact Hskip |].
    split; [by rewrite Heq |]. split; [by rewrite Heq |].
    split; [by rewrite Heq | exact Hem].
  - assert (∃ n, emitted s (handleError s)
                 = replicate n (warning (currentSrc s))
                   ++ [allFailedError (candidates s)]) as [n Hem]
      by (eexists; apply emitted_app; by rewrite Heq).
    assert (∀ j v, candidates s !! (S (currentIndex s) + j)%nat = Some v →
                   bad (urlCache s) v
                   ∧ currentSrc (handleError s) ≠ v
                   ∧ trying v ∉ emitted s (handleError s)) as Hskip.
    { intros j v Hv.
      destruct (later_candidate_cache s j v Hs Hv) as [Hne Hiff].
      split; [apply Hiff; by apply (Hall j) |].
      split; [rewrite Heq; simpl; congruence |].
      rewrite Hem. apply trying_not_emitted_error. }
    destruct (Hskip 0%nat next Hnext0) as (_ & Hsrc & Htry).
    split; [done |]. split; [done |]. right.
    pose proof (lookup_lt_Some _ _ _ Hnext) as Hlen.
    split; [done |].
    split; [rewrite Heq; unfold terminal, candidates in *; simpl; lia |].
    split; [rewrite Heq; simpl; lia |].
    split; [by rewrite Heq |]. split; [by rewrite Heq |].
    rewrite Hem. apply errors_warnings_then_error.
Qed.

Lemma skip_known_bad_witness :
  reachable photo2Again
  ∧ candidates photo2Again !! S (currentIndex photo2Again)
    = Some "/img/photo__200x100.webp"
  ∧ bad (urlCache photo2Again) "/img/photo__200x100.webp"
  ∧ currentSrc (handleError photo2Again) ≠ "/img/photo__200x100.webp"
  ∧ trying "/img/photo__200x100.webp" ∉ emitted photo2Again (handleError photo2Again).
Proof.
  assert (reachable photo2Again) as Hreach
    by (exists photo2, [onLoadFailure; onLoadFailure; initialize photo2];
        reflexivity).
  assert (candidates photo2Again !! S (currentIndex photo2Again)
          = Some "/img/photo__200x100.webp") as Hnext
    by (vm_compute; reflexivity).
  assert (bad (urlCache photo2Again) "/img/photo__200x100.webp") as Hbad
    by (unfold bad; vm_compute; reflexivity).
  split; [exact Hreach |]. split; [exact Hnext |]. split; [exact Hbad |].
  destruct (skip_known_bad photo2Again "/img/photo__200x100.webp"
              Hreach Hnext Hbad) as (Hsrc & Htry & _).
  split; [exact Hsrc | exact Htry].
Defined.


End SkipAndInitialize.

(** * Further properties of the helpers and of the component *)

(** ** URLs built from any source string *)

Section UrlShapes.

Lemma str_app_nil_r (s : string) : s +:+ "" = s.
Proof.
  induction s as [|x s IH]; [done |]. rewrite str_app_cons. by f_equal.
Qed.

Lemma str_take_drop (n : nat) (s : string) :
  str_take n s +:+ str_drop n s = s.
Proof.
  revert s. induction n as [|n IH]; intros [|x s]; simpl; try done.
  rewrite str_app_cons. by f_equal.
Qed.

Lemma str_drop_length (n : nat) (s : string) :
  String.length (str_drop n s) = (String.length s - n)%nat.
Proof. revert s. induction n as [|n IH]; intros [|x s]; simpl; auto with lia. Qed.

Lemma relIndex_bounds (len i : Z) :
  0 <= len → 0 <= relIndex len i <= len.
Proof. intros Hlen. unfold relIndex. destruct (Z.ltb_spec i 0); lia. Qed.

(** Whatever the index, the slice up to it and the slice from it make up
    the string: this covers the index [-1] of a string without a dot. *)
Lemma slice_prefix_suffix (s : string) (i : Z) :
  slice s 0 i +:+ slice s i (str_len s) = s.
Proof.
  pose proof (str_len_nonneg s) as Hlen.
  pose proof (relIndex_bounds (str_len s) i Hlen) as Hi.
  unfold slice.
  rewrite (relIndex_in_range _ 0), (relIndex_in_range _ (str_len s)) by lia.
  rewrite Z.sub_0_r, Z.max_l by lia. simpl str_drop.
  rewrite (str_take_all (Z.to_nat (Z.max _ 0)) (str_drop _ s)).
  - apply str_take_drop.
  - rewrite str_drop_length. unfold str_len in *. lia.
Qed.

Lemma substring_to_minus_one (s : string) : substring s 0 (-1) = "".
Proof.
  pose proof (str_len_nonneg s). unfold substring.
  replace (Z.min (Z.max 0 0) (str_len s)) with 0 by lia.
  replace (Z.min (Z.max (-1) 0) (str_len s)) with 0 by lia.
  done.
Qed.

(** With nothing to add, the helper gives back its source. *)
Lemma makeResizedImageUrl_nothing (s : string) (w h dens : option Z)
    (ext : option string) :
  truthy_num w && truthy_num h = false →
  truthy_ostr ext = false →
  truthy_num dens = false →
  makeResizedImageUrl s w h dens ext = s.
Proof.
  intros Hwh Hext Hdens. unfold makeResizedImageUrl.
  assert (match w, h with
          | Some w', Some h' =>
              if truthy_num w && truthy_num h
              then "__" +:+ pretty w' +:+ "x" +:+ pretty h' else ""
          | _, _ => ""
          end = "") as ->.
  { destruct w, h; try done. by rewrite Hwh. }
  assert (match ext with
          | Some e =>
              if truthy_str e then "." +:+ e
              else slice s (lastIndexOf "." s) (str_len s)
          | None => slice s (lastIndexOf "." s) (str_len s)
          end = slice s (lastIndexOf "." s) (str_len s)) as ->.
  { destruct ext as [e|]; [| done]. simpl in Hext. by rewrite Hext. }
  assert (match dens with
          | Some d => if truthy_num dens then " " +:+ pretty d +:+ "x" else ""
          | None => ""
          end = "") as ->.
  { destruct dens; [| done]. by rewrite Hdens. }
  change ("" +:+ ?x) with x. rewrite str_app_nil_r.
  apply slice_prefix_suffix.
Qed.

(** X1: for every source string, with or without a dot, the helper called
    with a zero (or absent) width or height, no usable extension and no
    usable density gives the source string back unchanged. *)
Theorem makeResizedImageUrl_identity (s : string) (w h dens : option Z)
    (ext : option string) :
  truthy_num w && truthy_num h = false →
  truthy_ostr ext = false →
  truthy_num dens = false →
  makeResizedImageUrl s w h dens ext = s.
Proof. apply makeResizedImageUrl_nothing. Qed.

Lemma makeResizedImageUrl_identity_witness :
  makeResizedImageUrl "abc" (Some 0) (Some 20) (Some 0) (Some "") = "abc".
Proof.
  apply (makeResizedImageUrl_identity "abc" (Some 0) (Some 20) (Some 0) (Some ""));
    reflexivity.
Defined.

(** [srcWithExt] computes what the helper computes without sizes. *)
Lemma srcWithExt_as_helper (p : Props) :
  srcWithExt p = makeResizedImageUrl (src p) (Some 0) (Some 0) None (Some (ext p)).
Proof.
  unfold srcWithExt, makeResizedImageUrl, slice_from. simpl truthy_num.
  cbv iota. change ("" +:+ ?x) with x. rewrite str_app_nil_r.
  by destruct (truthy_str (ext p)).
Qed.

(** X2: [srcWithExt] with an empty [ext] prop is the source string itself,
    for every source string. *)
Theorem srcWithExt_empty_ext (p : Props) :
  ext p = "" → srcWithExt p = src p.
Proof.
  intros Hext. rewrite srcWithExt_as_helper.
  apply makeResizedImageUrl_nothing; [done | by rewrite Hext | done].
Qed.

Lemma srcWithExt_empty_ext_witness :
  srcWithExt {| alt := ""; src := "/img/photo.jpg"; w := 100; h := 50;
                ext := ""; sizes := []; loading := "lazy" |}
  = "/img/photo.jpg".
Proof.
  apply (srcWithExt_empty_ext
           {| alt := ""; src := "/img/photo.jpg"; w := 100; h := 50;
              ext := ""; sizes := []; loading := "lazy" |}).
  reflexivity.
Defined.

Lemma srcWithExt_split (p : Props) (base originalExt : string) :
  src p = base +:+ "." +:+ originalExt →
  contains "." originalExt = false →
  srcWithExt p = base +:+ extension (Some (ext p)) originalExt.
Proof.
  intros Hsrc Hext. rewrite srcWithExt_as_helper, Hsrc.
  rewrite makeResizedImageUrl_split by done.
  change (sizeTag 0 0) with "". change (densitySuffix None) with "".
  change ("" +:+ ?x) with x. by rewrite str_app_nil_r.
Qed.

(** X3: swapping the extension first and sizing afterwards, as the component
    does for its primary candidate, gives the same URL as one call of the
    helper with the extension, provided the source has a dot and the
    extension is not empty and has no dot of its own. *)
Theorem swap_then_size (p : Props) (w' h' : Z) (dens : option Z) :
  contains "." (src p) = true →
  truthy_str (ext p) = true →
  contains "." (ext p) = false →
  makeResizedImageUrl (srcWithExt p) (Some w') (Some h') dens None
  = makeResizedImageUrl (src p) (Some w') (Some h') dens (Some (ext p)).
Proof.
  intros (base & originalExt & Hsrc & Htail)%split_at_last Hne Hdot.
  rewrite (srcWithExt_split p base originalExt Hsrc Htail).
  rewrite Hsrc.
  change (base +:+ String "." originalExt) with (base +:+ "." +:+ originalExt).
  rewrite (makeResizedImageUrl_split base originalExt) by done.
  destruct (ext p) as [|a e] eqn:He; [done |].
  change (extension (Some (String a e)) originalExt) with ("." +:+ String a e).
  by rewrite makeResizedImageUrl_split.
Qed.

Lemma swap_then_size_witness :
  makeResizedImageUrl (srcWithExt photo) (Some 100) (Some 50) None None
  = makeResizedImageUrl (src photo) (Some 100) (Some 50) None (Some (ext photo)).
Proof.
  apply (swap_then_size photo 100 50 None); reflexivity.
Defined.

Lemma extToUse_nonempty (o : option string) (e : string) :
  truthy_str (str_or (ostr_or o e) "webp") = true.
Proof.
  unfold str_or. by destruct (truthy_str (ostr_or o e)) eqn:H.
Qed.

(** X4: for a source with a dot, the URL pushed for an element of [sizes]
    is the helper's URL for the source at the element's width and height
    (each falling back to the prop when absent or zero) with the extension
    [size.ext || ext || 'webp'], provided that extension has no dot. *)
Theorem sizeUrl_dotted (p : Props) (size : Size) :
  contains "." (src p) = true →
  contains "." (str_or (ostr_or (size_ext size) (ext p)) "webp") = false →
  sizeUrl p size
  = makeResizedImageUrl (src p)
      (Some (num_or (size_w size) (w p)))
      (Some (num_or (size_h size) (h p)))
      None
      (Some (str_or (ostr_or (size_ext size) (ext p)) "webp")).
Proof.
  intros (base & originalExt & Hsrc & Htail)%split_at_last Hdot.
  unfold sizeUrl. rewrite Hsrc.
  rewrite (lastIndexOf_app_last _ _ _ Htail), substring_base.
  change (base +:+ String "." originalExt) with (base +:+ "." +:+ originalExt).
  rewrite !makeResizedImageUrl_split by done.
  pose proof (extToUse_nonempty (size_ext size) (ext p)) as Hne.
  by destruct (str_or (ostr_or (size_ext size) (ext p)) "webp").
Qed.

Lemma sizeUrl_dotted_witness :
  sizeUrl photo2 {| size_w := Some 200; size_h := None;
                    size_dens := None; size_ext := Some "avif" |}
  = makeResizedImageUrl "/img/photo.jpg" (Some 200) (Some 50) None (Some "avif").
Proof.
  apply (sizeUrl_dotted photo2
           {| size_w := Some 200; size_h := None;
              size_dens := None; size_ext := Some "avif" |});
    reflexivity.
Defined.

(** X5: for a source without a dot, the URL pushed for an element of
    [sizes] contains nothing of the source: [substring] reads the index
    [-1] as 0, the base is empty, and the URL is the size tag followed by
    the extension. *)
Theorem sizeUrl_dotless (p : Props) (size : Size) :
  contains "." (src p) = false →
  contains "." (str_or (ostr_or (size_ext size) (ext p)) "webp") = false →
  sizeUrl p size
  = sizeTag (num_or (size_w size) (w p)) (num_or (size_h size) (h p))
    +:+ "." +:+ str_or (ostr_or (size_ext size) (ext p)) "webp".
Proof.
  intros Hno Hdot. unfold sizeUrl.
  rewrite (lastIndexOf_absent _ _ Hno), substring_to_minus_one.
  rewrite (makeResizedImageUrl_split "" _ _ _ None None Hdot).
  change (densitySuffix None) with "". change ("" +:+ ?x) with x.
  change (extension None ?e) with ("." +:+ e).
  by rewrite (str_app_nil_r ("." +:+ _)).
Qed.

Lemma sizeUrl_dotless_witness :
  sizeUrl {| alt := ""; src := "/img/photo"; w := 100; h := 50; ext := "webp";
             sizes := []; loading := "lazy" |}
          {| size_w := Some 200; size_h := Some 100;
             size_dens := None; size_ext := None |}
  = sizeTag 200 100 +:+ "." +:+ "webp".
Proof.
  apply (sizeUrl_dotless
           {| alt := ""; src := "/img/photo"; w := 100; h := 50; ext := "webp";
              sizes := []; loading := "lazy" |}
           {| size_w := Some 200; size_h := Some 100;
              size_dens := None; size_ext := None |});
    reflexivity.
Defined.

End UrlShapes.

(** ** More on the candidate list and the source set *)

Section CandidateShapes.

Lemma dedup_first_length (l : list string) :
  (length (dedup_first l) ≤ length l)%nat.
Proof.
  induction l as [|x l IH]; simpl; [done |].
  pose proof (length_filter (λ y, y ≠ x) (dedup_first l)). lia.
Qed.

(** X6: a request without sizes whose width or height is zero has exactly
    one candidate, the extension-swapped source: the primary URL carries no
    size tag, equals the unsized URL, and is listed once. *)
Theorem fallbackUrls_unsized (p : Props) :
  w p = 0 ∨ h p = 0 →
  sizes p = [] →
  fallbackUrls p = [srcWithExt p].
Proof.
  intros Hwh Hsizes.
  rewrite fallbackUrls_ordered, spread_new_Set_dedup.
  unfold orderedUrls. rewrite Hsizes.
  rewrite makeResizedImageUrl_nothing; [| | done | done].
  - simpl. rewrite filter_cons_False; [done | by intros H].
  - unfold truthy_num. destruct Hwh as [-> | ->]; [done |].
    by destruct (w p =? 0).
Qed.

Lemma fallbackUrls_unsized_witness :
  fallbackUrls {| alt := ""; src := "/img/photo.jpg"; w := 100; h := 0;
                  ext := "webp"; sizes := []; loading := "lazy" |}
  = [srcWithExt {| alt := ""; src := "/img/photo.jpg"; w := 100; h := 0;
                   ext := "webp"; sizes := []; loading := "lazy" |}].
Proof.
  apply (fallbackUrls_unsized
           {| alt := ""; src := "/img/photo.jpg"; w := 100; h := 0;
              ext := "webp"; sizes := []; loading := "lazy" |});
    [right; reflexivity | reflexivity].
Defined.

(** X7: the candidate list has at least one element and at most two more
    than [sizes]; the unsized URL and the URL of every element of [sizes]
    are among the candidates. *)
Theorem fallbackUrls_length (p : Props) :
  (1 ≤ length (fallbackUrls p) ≤ length (sizes p) + 2)%nat
  ∧ srcWithExt p ∈ fallbackUrls p
  ∧ (∀ size, size ∈ sizes p → sizeUrl p size ∈ fallbackUrls p).
Proof.
  split; [split; [apply fallbackUrls_nonempty |] | split].
  - rewrite fallbackUrls_ordered, spread_new_Set_dedup.
    etrans; [apply dedup_first_length |].
    unfold orderedUrls. simpl. rewrite length_app, length_map. simpl. lia.
  - rewrite fallbackUrls_ordered, spread_new_Set_dedup, dedup_first_elem_of.
    unfold orderedUrls. rewrite elem_of_cons, elem_of_app, list_elem_of_singleton.
    auto.
  - intros size Hsize.
    rewrite fallbackUrls_ordered, spread_new_Set_dedup, dedup_first_elem_of.
    unfold orderedUrls. rewrite elem_of_cons, elem_of_app. right. left.
    apply list_elem_of_fmap. by exists size.
Qed.

Lemma concat_app (sep : string) (l k : list string) :
  l ≠ [] → k ≠ [] →
  String.concat sep (l ++ k)
  = String.concat sep l +:+ sep +:+ String.concat sep k.
Proof.
  intros Hl Hk. induction l as [|x l IH]; [done |].
  destruct l as [|y l].
  - simpl. by destruct k.
  - change (String.concat sep ((x :: y :: l) ++ k))
      with (x +:+ sep +:+ String.concat sep ((y :: l) ++ k)).
    rewrite IH by done.
    change (String.concat sep (x :: y :: l))
      with (x +:+ sep +:+ String.concat sep (y :: l)).
    by rewrite !str_app_assoc.
Qed.

(** X8: the source set of two non-empty runs of variants is the source set
    of the first, then ", ", then the source set of the second; with an
    empty run on either side it is the source set of the other. *)
Theorem makeResizedSrcSet_app (s : string) (l k : list Size) :
  makeResizedSrcSet s (l ++ k)
  = match l, k with
    | [], _ => makeResizedSrcSet s k
    | _, [] => makeResizedSrcSet s l
    | _ :: _, _ :: _ => makeResizedSrcSet s l +:+ ", " +:+ makeResizedSrcSet s k
    end.
Proof.
  destruct l as [|a l]; [done |].
  destruct k as [|b k]; [by rewrite app_nil_r |].
  unfold makeResizedSrcSet. rewrite !join_concat, map_app.
  by apply concat_app.
Qed.

End CandidateShapes.

(** ** More on the controller *)

Section ControllerEffects.

Lemma handleError_urlCache (s : State) :
  urlCache (handleError s) = cacheAfterFailure s.
Proof.
  by destruct (handleError_cases s) as [(k & u & _ & _ & _ & ->) | [_ ->]].
Qed.

Lemma handleError_props (s : State) : props (handleError s) = props s.
Proof.
  by destruct (handleError_cases s) as [(k & u & _ & _ & _ & ->) | [_ ->]].
Qed.

Lemma call_urlCache (s : State) (c : Call) :
  urlCache (call s c) = urlCache s
  ∨ urlCache (call s c) = <[currentSrc s := false]> (urlCache s).
Proof.
  destruct c as [request|]; simpl; [by left | right].
  apply handleError_urlCache.
Qed.

(** X9: one call of [handleError] records exactly one URL, however many
    candidates it skips: the cache afterwards is the cache before with the
    URL that was shown marked as bad, and every other entry is as it was. *)
Theorem handleError_records_one (s : State) :
  urlCache (handleError s) = <[currentSrc s := false]> (urlCache s)
  ∧ bad (urlCache (handleError s)) (currentSrc s)
  ∧ (∀ url, url ≠ currentSrc s →
            urlCache (handleError s) !! url = urlCache s !! url).
Proof.
  rewrite handleError_urlCache. unfold cacheAfterFailure, bad.
  split; [done |]. split; [apply lookup_insert_eq |].
  intros url Hne. by apply lookup_insert_ne.
Qed.

Lemma call_keeps_bad (s : State) (c : Call) (url : string) :
  bad (urlCache s) url → bad (urlCache (call s c)) url.
Proof.
  unfold bad. intros Hbad.
  destruct (call_urlCache s c) as [-> | ->]; [done |].
  destruct (decide (currentSrc s = url)) as [-> | Hne].
  - apply lookup_insert_eq.
  - by rewrite lookup_insert_ne.
Qed.

(** X10: a URL once known to be bad stays known to be bad through every
    sequence of calls, [initialize] with any request included: nothing
    removes an entry of the cache or turns it to good. *)
Theorem run_keeps_bad (calls : list Call) (s : State) (url : string) :
  bad (urlCache s) url → bad (urlCache (run s calls)) url.
Proof.
  revert s. induction calls as [|c calls IH]; intros s Hbad; [done |].
  simpl. apply IH. by apply call_keeps_bad.
Qed.

Lemma run_keeps_bad_witness :
  bad (urlCache photoLast) "/img/photo__100x50.webp"
  ∧ bad (urlCache (run photoLast [initialize photo2; onLoadFailure]))
      "/img/photo__100x50.webp".
Proof.
  assert (bad (urlCache photoLast) "/img/photo__100x50.webp") as Hbad
    by (unfold bad; vm_compute; reflexivity).
  split; [exact Hbad |].
  exact (run_keeps_bad [initialize photo2; onLoadFailure] photoLast
           "/img/photo__100x50.webp" Hbad).
Defined.

Lemma run_only_bad (calls : list Call) (s : State) :
  (∀ url b, urlCache s !! url = Some b → b = false) →
  ∀ url b, urlCache (run s calls) !! url = Some b → b = false.
Proof.
  revert s. induction calls as [|c calls IH]; intros s Hs; [done |].
  simpl. apply IH. intros url b.
  destruct (call_urlCache s c) as [-> | ->]; [apply Hs |].
  destruct (decide (currentSrc s = url)) as [-> | Hne].
  - rewrite lookup_insert_eq. congruence.
  - rewrite lookup_insert_ne by done. apply Hs.
Qed.

(** X11: in every reachable state the cache holds failures only: an entry
    of the cache is never [true], so a URL is either known to be bad or
    unknown. *)
Theorem reachable_cache_only_bad (s : State) (url : string) (b : bool) :
  reachable s → urlCache s !! url = Some b → b = false.
Proof.
  intros (p & calls & ->). apply run_only_bad.
  intros url' b'. simpl. by rewrite lookup_empty.
Qed.

Lemma reachable_cache_only_bad_witness :
  reachable photoExhausted
  ∧ urlCache photoExhausted !! "/img/photo.webp" = Some false
  ∧ false = false.
Proof.
  assert (reachable photoExhausted) as Hreach
    by (exists photo, [onLoadFailure; onLoadFailure]; reflexivity).
  assert (urlCache photoExhausted !! "/img/photo.webp" = Some false) as Hentry
    by (vm_compute; reflexivity).
  split; [exact Hreach |]. split; [exact Hentry |].
  exact (reachable_cache_only_bad photoExhausted "/img/photo.webp" false
           Hreach Hentry).
Defined.

Lemma call_imageKey (s : State) (c : Call) :
  (imageKey (call s c) = S (imageKey s))
  ∨ (imageKey (call s c) = imageKey s ∧ currentSrc (call s c) = currentSrc s).
Proof.
  destruct c as [request|]; simpl; [by left |].
  destruct (handleError_cases s) as [(k & u & _ & _ & _ & ->) | [_ ->]];
    [by left | by right].
Qed.

(** X12: the key follows the URL shown: a call that changes [currentSrc]
    adds exactly one to [imageKey], no call adds more than one or takes the
    key back, and over any sequence of calls the key does not decrease. *)
Theorem imageKey_follows_currentSrc (s : State) :
  (∀ c, (imageKey s ≤ imageKey (call s c) ≤ S (imageKey s))%nat
        ∧ (currentSrc (call s c) ≠ currentSrc s →
           imageKey (call s c) = S (imageKey s)))
  ∧ (∀ calls, (imageKey s ≤ imageKey (run s calls))%nat).
Proof.
  split.
  - intros c. destruct (call_imageKey s c) as [-> | [-> Hsrc]].
    + split; [lia | done].
    + split; [lia | done].
  - intros calls. revert s. induction calls as [|c calls IH]; intros s; [done |].
    simpl. etrans; [| apply IH].
    destruct (call_imageKey s c) as [-> | [-> _]]; lia.
Qed.

(** X13: a call of [handleError] writes one warning per step of the index,
    each naming the URL that was shown when the call began (the skipped
    candidates are not named), followed by exactly one more entry: the
    announcement of the URL now shown, or the error with the whole list. *)
Theorem handleError_console (s : State) :
  ∃ final,
    emitted s (handleError s)
    = replicate (currentIndex (handleError s) - currentIndex s)
        (warning (currentSrc s)) ++ [final]
    ∧ (currentIndex s < currentIndex (handleError s))%nat
    ∧ (final = trying (currentSrc (handleError s))
       ∧ ¬ terminal (handleError s)
       ∨ final = allFailedError (candidates s)
         ∧ terminal (handleError s)).
Proof.
  destruct (handleError_cases s) as [(k & u & Hu & _ & _ & ->) | [_ ->]].
  - exists (trying u). split; [| split; [simpl; lia |]].
    + apply emitted_app. simpl.
      by replace (S (currentIndex s + k) - currentIndex s)%nat with (S k) by lia.
    + left. split; [done |]. apply lookup_lt_Some in Hu.
      unfold terminal, candidates in *. simpl. lia.
  - exists (allFailedError (candidates s)). split; [| split; [simpl; lia |]].
    + apply emitted_app. simpl.
      by replace (S (currentIndex s
                     + (length (candidates s) - S (currentIndex s)))
                  - currentIndex s)%nat
        with (S (length (candidates s) - S (currentIndex s))) by lia.
    + right. split; [done |]. unfold terminal, candidates. simpl. lia.
Qed.

Lemma handleError_terminal_any (s : State) :
  terminal s →
  handleError s
  = {| props := props s;
       currentIndex := S (currentIndex s);
       imageKey := imageKey s;
       currentSrc := currentSrc s;
       urlCache := cacheAfterFailure s;
       console :=
         console s ++ [warning (currentSrc s); allFailedError (candidates s)] |}.
Proof.
  unfold terminal. intros Hterm. rewrite (handleError_exhausted 0 s).
  - f_equal. lia.
  - lia.
  - intros j v Hv. apply lookup_lt_Some in Hv. lia.
Qed.

Lemma run_failures_S (s : State) (n : nat) :
  run s (replicate (S n) onLoadFailure)
  = handleError (run s (replicate n onLoadFailure)).
Proof. unfold run. by rewrite replicate_S_end, foldl_snoc. Qed.

(** X14: the terminal state is left by [initialize] only: any number of
    further failures keeps the controller in it, with the URL shown and the
    key unchanged and the index raised by that number, and an [initialize]
    with any request then puts the index back to 0, which is in range. *)
Theorem terminal_until_initialize (s : State) (n : nat) :
  terminal s →
  terminal (run s (replicate n onLoadFailure))
  ∧ currentSrc (run s (replicate n onLoadFailure)) = currentSrc s
  ∧ imageKey (run s (replicate n onLoadFailure)) = imageKey s
  ∧ currentIndex (run s (replicate n onLoadFailure)) = (currentIndex s + n)%nat
  ∧ (∀ request,
       ¬ terminal (call (run s (replicate n onLoadFailure)) (initialize request))
       ∧ currentIndex (call (run s (replicate n onLoadFailure)) (initialize request))
         = 0%nat).
Proof.
  intros Hterm.
  assert (terminal (run s (replicate n onLoadFailure))
          ∧ currentSrc (run s (replicate n onLoadFailure)) = currentSrc s
          ∧ imageKey (run s (replicate n onLoadFailure)) = imageKey s
          ∧ currentIndex (run s (replicate n onLoadFailure))
            = (currentIndex s + n)%nat
          ∧ props (run s (replicate n onLoadFailure)) = props s) as H.
  { induction n as [|n (Ht & Hsrc & Hkey & Hidx & Hprops)].
    - simpl. repeat split; [done | lia].
    - rewrite run_failures_S, (handleError_terminal_any _ Ht).
      unfold terminal, candidates in *. simpl. rewrite Hprops in *.
      repeat split; [lia | done | done | lia]. }
  destruct H as (Ht & Hsrc & Hkey & Hidx & _).
  repeat split; try done.
  unfold terminal, candidates. simpl.
  pose proof (fallbackUrls_nonempty request). lia.
Qed.

Lemma terminal_until_initialize_witness :
  terminal photoExhausted
  ∧ terminal (run photoExhausted (replicate 3 onLoadFailure))
  ∧ currentSrc (run photoExhausted (replicate 3 onLoadFailure))
    = currentSrc photoExhausted
  ∧ imageKey (run photoExhausted (replicate 3 onLoadFailure))
    = imageKey photoExhausted
  ∧ currentIndex (run photoExhausted (replicate 3 onLoadFailure))
    = (currentIndex photoExhausted + 3)%nat
  ∧ (∀ request,
       ¬ terminal (call (run photoExhausted (replicate 3 onLoadFailure))
                     (initialize request))
       ∧ currentIndex (call (run photoExhausted (replicate 3 onLoadFailure))
                         (initialize request))
         = 0%nat).
Proof.
  assert (terminal photoExhausted) as Hterm
    by (unfold terminal; vm_compute; lia).
  split; [exact Hterm |].
  exact (terminal_until_initialize photoExhausted 3 Hterm).
Defined.

End ControllerEffects.

(** ** Runs of the controller *)

Section Runs.

Lemma errors_app (l k : list ConsoleCall) :
  errors (l ++ k) = (errors l + errors k)%nat.
Proof. unfold errors. by rewrite filter_app, length_app. Qed.

(** A new component that has seen [n] failures, with candidates left: it
    shows candidate [n], and the cache holds the candidates before it only. *)
Lemma fresh_run_trying (p : Props) (n : nat) :
  (n < length (fallbackUrls p))%nat →
  props (run (setup p) (replicate n onLoadFailure)) = p
  ∧ currentIndex (run (setup p) (replicate n onLoadFailure)) = n
  ∧ fallbackUrls p !! n = Some (currentSrc (run (setup p) (replicate n onLoadFailure)))
  ∧ imageKey (run (setup p) (replicate n onLoadFailure)) = S n
  ∧ errors (console (run (setup p) (replicate n onLoadFailure))) = 0%nat
  ∧ (∀ url, bad (urlCache (run (setup p) (replicate n onLoadFailure))) url →
            ∃ i, (i < n)%nat ∧ fallbackUrls p !! i = Some url).
Proof.
  induction n as [|n IH]; intros Hn.
  - simpl. repeat split.
    + exact (initializeImage_currentSrc
               {| props := p; currentIndex := 0; imageKey := 0; currentSrc := "";
                  urlCache := ∅; console := [] |}).
    + intros url Hbad. unfold bad in Hbad. by rewrite lookup_empty in Hbad.
  - destruct IH as (Hprops & Hidx & Hsrc & Hkey & Herr & Hcache); [lia |].
    rewrite run_failures_S.
    set (s := run (setup p) (replicate n onLoadFailure)) in *.
    destruct (lookup_lt_is_Some_2 (fallbackUrls p) (S n) Hn) as [u Hu].
    pose proof (fallbackUrls_NoDup p) as Hnodup.
    assert (∀ url, bad (cacheAfterFailure s) url →
                   ∃ i, (i < S n)%nat ∧ fallbackUrls p !! i = Some url) as Hcache'.
    { intros url. unfold bad, cacheAfterFailure.
      destruct (decide (currentSrc s = url)) as [<- | Hne].
      - intros _. exists n. split; [lia | done].
      - rewrite lookup_insert_ne by done. intros Hbad.
        destruct (Hcache url Hbad) as (i & Hi & Hurl). exists i. split; [lia | done]. }
    rewrite (handleError_found 0 s u).
    + simpl. rewrite Hprops, Hidx, Hkey.
      split; [done |]. split; [lia |]. split; [done |]. split; [done |].
      split; [| done].
      rewrite errors_app, Herr. done.
    + unfold candidates. rewrite Hprops, Hidx. rewrite <- Hu. f_equal. lia.
    + intros Hbad. destruct (Hcache' u Hbad) as (i & Hi & Hurl).
      pose proof (NoDup_lookup _ _ _ _ Hnodup Hu Hurl). lia.
    + intros j v Hj. lia.
Qed.

(** X15: a new component driven by failures alone walks the whole list: for
    every [n] up to the number of candidates, after [n] failures the index
    is [n]; while candidates are left the URL shown is candidate [n], the
    key is [n + 1] and no error has been written; after as many failures as
    there are candidates the last candidate is still shown, the key is the
    number of candidates and exactly one error has been written. *)
Theorem fresh_component_exhaustion (p : Props) (n : nat) :
  (n ≤ length (fallbackUrls p))%nat →
  currentIndex (run (setup p) (replicate n onLoadFailure)) = n
  ∧ fallbackUrls p !! Nat.min n (length (fallbackUrls p) - 1)
    = Some (currentSrc (run (setup p) (replicate n onLoadFailure)))
  ∧ imageKey (run (setup p) (replicate n onLoadFailure))
    = Nat.min (S n) (length (fallbackUrls p))
  ∧ errors (console (run (setup p) (replicate n onLoadFailure)))
    = (if decide (n = length (fallbackUrls p)) then 1 else 0)%nat.
Proof.
  intros Hn. destruct (decide (n = length (fallbackUrls p))) as [Heq | Hne].
  - pose proof (fallbackUrls_nonempty p) as Hlen.
    destruct n as [|m]; [lia |].
    destruct (fresh_run_trying p m) as (Hprops & Hidx & Hsrc & Hkey & Herr & _);
      [lia |].
    rewrite run_failures_S.
    set (s := run (setup p) (replicate m onLoadFailure)) in *.
    replace (Nat.min (S m) (length (fallbackUrls p) - 1)) with m by lia.
    replace (Nat.min (S (S m)) (length (fallbackUrls p))) with (S m) by lia.
    rewrite (handleError_exhausted 0 s).
    + cbn [currentIndex imageKey currentSrc console].
      rewrite Hidx, Hkey, errors_app, Herr.
      split; [lia |]. split; [done |]. split; [done |].
      by rewrite errors_warnings_then_error.
    + unfold candidates. rewrite Hprops, Hidx. lia.
    + intros j v Hv. apply lookup_lt_Some in Hv.
      unfold candidates in Hv. rewrite Hprops, Hidx in Hv. lia.
  - destruct (fresh_run_trying p n) as (_ & Hidx & Hsrc & Hkey & Herr & _);
      [lia |].
    replace (Nat.min n (length (fallbackUrls p) - 1)) with n by lia.
    replace (Nat.min (S n) (length (fallbackUrls p))) with (S n) by lia.
    done.
Qed.

Lemma fresh_component_exhaustion_witness :
  (2 ≤ length (fallbackUrls photo))%nat
  ∧ currentIndex (run (setup photo) (replicate 2 onLoadFailure)) = 2%nat
  ∧ fallbackUrls photo !! Nat.min 2 (length (fallbackUrls photo) - 1)
    = Some (currentSrc (run (setup photo) (replicate 2 onLoadFailure)))
  ∧ imageKey (run (setup photo) (replicate 2 onLoadFailure))
    = Nat.min 3 (length (fallbackUrls photo))
  ∧ errors (console (run (setup photo) (replicate 2 onLoadFailure)))
    = (if decide (2 = length (fallbackUrls photo)) then 1 else 0)%nat.
Proof.
  assert (2 ≤ length (fallbackUrls photo))%nat as Hlen by (vm_compute; lia).
  split; [exact Hlen |].
  exact (fresh_component_exhaustion photo 2 Hlen).
Defined.

Lemma run_shown_is_candidate (calls : list Call) (s : State) :
  (∃ i, (i ≤ currentIndex s)%nat ∧ candidates s !! i = Some (currentSrc s)) →
  ∃ i, (i ≤ currentIndex (run s calls))%nat
       ∧ candidates (run s calls) !! i = Some (currentSrc (run s calls)).
Proof.
  revert s. induction calls as [|c calls IH]; intros s Hs; [done |].
  simpl. apply IH. destruct c as [request|]; simpl.
  - exists 0%nat. split; [done |].
    exact (initializeImage_currentSrc (setProps request s)).
  - destruct Hs as (i & Hi & Hsrc).
    destruct (handleError_cases s) as [(k & u & Hu & _ & _ & ->) | [_ ->]];
      unfold candidates in *; simpl.
    + exists (S (currentIndex s) + k)%nat. split; [lia | done].
    + exists i. split; [lia | done].
Qed.

End Runs.

(** ** The unwatched props *)

Section StepAndWatch.

(** X18: new props that leave [src], [ext], [w] and [h] as they are do not
    run [initializeImage]: the index, the URL shown, the key and the cache
    stay, whatever [sizes] has become.  The first candidate does not depend
    on [sizes], so a component that has seen no failure still shows the
    first candidate of the new list. *)
Theorem unwatched_change (p : Props) (s : State) :
  watched p = watched (props s) →
  currentIndex (updateProps p s) = currentIndex s
  ∧ currentSrc (updateProps p s) = currentSrc s
  ∧ imageKey (updateProps p s) = imageKey s
  ∧ urlCache (updateProps p s) = urlCache s
  ∧ fallbackUrls p !! 0%nat = fallbackUrls (props s) !! 0%nat
  ∧ (candidates s !! 0%nat = Some (currentSrc s) →
     candidates (updateProps p s) !! 0%nat = Some (currentSrc (updateProps p s))).
Proof.
  intros Hw. unfold updateProps. rewrite decide_True by done.
  assert (fallbackUrls p !! 0%nat = fallbackUrls (props s) !! 0%nat) as Hhead.
  { rewrite !fallbackUrls_head. unfold watched in Hw.
    injection Hw as Hsrc Hext Hwidth Hheight.
    unfold srcWithExt. by rewrite Hsrc, Hext, Hwidth, Hheight. }
  repeat split; try done.
  unfold candidates. simpl. by rewrite Hhead.
Qed.

Lemma unwatched_change_witness :
  watched photo2 = watched (props (setup photo))
  ∧ currentIndex (updateProps photo2 (setup photo)) = currentIndex (setup photo)
  ∧ currentSrc (updateProps photo2 (setup photo)) = currentSrc (setup photo)
  ∧ imageKey (updateProps photo2 (setup photo)) = imageKey (setup photo)
  ∧ urlCache (updateProps photo2 (setup photo)) = urlCache (setup photo)
  ∧ fallbackUrls photo2 !! 0%nat = fallbackUrls (props (setup photo)) !! 0%nat
  ∧ (candidates (setup photo) !! 0%nat = Some (currentSrc (setup photo)) →
     candidates (updateProps photo2 (setup photo)) !! 0%nat
     = Some (currentSrc (updateProps photo2 (setup photo)))).
Proof.
  assert (watched photo2 = watched (props (setup photo))) as Hw by reflexivity.
  split; [exact Hw |].
  exact (unwatched_change photo2 (setup photo) Hw).
Defined.

End StepAndWatch.

(** ** The candidate list against the specification *)

Section SpecifiedCandidates.

Lemma splitAtLastDot_absent (s : string) :
  contains "." s = false → splitAtLastDot s = None.
Proof.
  induction s as [|a s IH]; simpl; [done |].
  intros [Ha Hs]%orb_false_iff. by rewrite (IH Hs), Ha.
Qed.

Lemma splitAtLastDot_app (base originalExt : string) :
  contains "." originalExt = false →
  splitAtLastDot (base +:+ "." +:+ originalExt) = Some (base, originalExt).
Proof.
  intros Hext. change ("." +:+ originalExt) with (String "." originalExt).
  induction base as [|a base IH].
  - change ("" +:+ String "." originalExt) with (String "." originalExt).
    simpl. by rewrite (splitAtLastDot_absent _ Hext).
  - rewrite str_app_cons. simpl. by rewrite IH.
Qed.

(** On a string with a dot the helper computes what the specification
    describes. *)
Lemma buildResizedUrl_dotted (s : string) (w' h' : Z) (ext : option string)
    (dens : option Z) :
  contains "." s = true →
  buildResizedUrl s w' h' ext dens
  = makeResizedImageUrl s (Some w') (Some h') dens ext.
Proof.
  intros (base & originalExt & -> & Hext)%split_at_last.
  change (base +:+ String "." originalExt) with (base +:+ "." +:+ originalExt).
  unfold buildResizedUrl. rewrite (splitAtLastDot_app _ _ Hext).
  by rewrite makeResizedImageUrl_split.
Qed.

Lemma swapExtension_dotted (p : Props) :
  contains "." (src p) = true →
  swapExtension (src p) (ext p) = srcWithExt p
  ∧ contains "." (srcWithExt p) = true.
Proof.
  intros (base & originalExt & Hsrc & Hext)%split_at_last.
  change (base +:+ String "." originalExt)
    with (base +:+ "." +:+ originalExt) in Hsrc.
  rewrite (srcWithExt_split p base originalExt Hsrc Hext).
  unfold swapExtension. rewrite Hsrc, (splitAtLastDot_app _ _ Hext).
  split; [done |].
  destruct (ext p) as [|a e]; apply contains_app_last.
Qed.

Lemma sizeUrl_as_helper (p : Props) (size : Size) :
  contains "." (src p) = true →
  contains "." (str_or (ostr_or (size_ext size) (ext p)) "webp") = false →
  sizeUrl p size
  = makeResizedImageUrl (src p)
      (Some (num_or (size_w size) (w p)))
      (Some (num_or (size_h size) (h p)))
      None
      (Some (str_or (ostr_or (size_ext size) (ext p)) "webp")).
Proof.
  intros (base & originalExt & Hsrc & Htail)%split_at_last Hdot.
  unfold sizeUrl. rewrite Hsrc.
  rewrite (lastIndexOf_app_last _ _ _ Htail), substring_base.
  change (base +:+ String "." originalExt) with (base +:+ "." +:+ originalExt).
  rewrite !makeResizedImageUrl_split by done.
  pose proof (extToUse_nonempty (size_ext size) (ext p)) as Hne.
  by destruct (str_or (ostr_or (size_ext size) (ext p)) "webp").
Qed.

Lemma specifiedUrls_ordered (p : Props) :
  contains "." (src p) = true →
  Forall (λ size,
            contains "." (str_or (ostr_or (size_ext size) (ext p)) "webp") = false)
         (sizes p) →
  specifiedUrls p = orderedUrls p.
Proof.
  intros Hsrc Hsizes. unfold specifiedUrls, orderedUrls.
  destruct (swapExtension_dotted p Hsrc) as [-> Hswapped].
  rewrite (buildResizedUrl_dotted _ _ _ _ _ Hswapped).
  simpl. do 2 f_equal.
  induction Hsizes as [|size rest Hsize _ IH]; [done |].
  simpl. rewrite IH. f_equal.
  rewrite (buildResizedUrl_dotted _ _ _ _ _ Hsrc).
  symmetry. by apply sizeUrl_as_helper.
Qed.

(** C3 (as amended): for every request whose [src] has a dot and whose
    sizes all choose an extension without a dot, the candidate list is, in
    this order, the source with its extension swapped and then sized to
    [w] x [h], one resized URL of the source per element of [sizes] in input
    order (width [size.w] or [w], height [size.h] or [h], extension
    [size.ext] or [ext] or "webp"), and the extension-swapped unsized
    source, with every string that occurred earlier removed: the list has no
    duplicates and holds exactly the strings of that sequence. *)
Theorem fallbackUrls_as_specified (p : Props) :
  contains "." (src p) = true →
  Forall (λ size,
            contains "." (str_or (ostr_or (size_ext size) (ext p)) "webp") = false)
         (sizes p) →
  fallbackUrls p = specifiedCandidateList p
  ∧ NoDup (fallbackUrls p)
  ∧ (∀ url, url ∈ fallbackUrls p ↔ url ∈ specifiedUrls p)
  ∧ (NoDup (specifiedUrls p) → fallbackUrls p = specifiedUrls p).
Proof.
  intros Hsrc Hsizes. unfold specifiedCandidateList.
  rewrite (specifiedUrls_ordered p Hsrc Hsizes).
  rewrite fallbackUrls_ordered, spread_new_Set_dedup.
  split; [done |]. split; [apply dedup_first_NoDup |].
  split; [intros url; apply dedup_first_elem_of | apply dedup_first_id].
Qed.

Lemma fallbackUrls_as_specified_witness :
  contains "." (src photo2) = true
  ∧ Forall (λ size,
              contains "." (str_or (ostr_or (size_ext size) (ext photo2)) "webp")
              = false)
           (sizes photo2)
  ∧ fallbackUrls photo2 = specifiedCandidateList photo2
  ∧ NoDup (fallbackUrls photo2)
  ∧ (∀ url, url ∈ fallbackUrls photo2 ↔ url ∈ specifiedUrls photo2)
  ∧ (NoDup (specifiedUrls photo2) → fallbackUrls photo2 = specifiedUrls photo2).
Proof.
  assert (contains "." (src photo2) = true) as Hsrc by reflexivity.
  assert (Forall (λ size,
                    contains "."
                      (str_or (ostr_or (size_ext size) (ext photo2)) "webp")
                    = false)
                 (sizes photo2)) as Hsizes
    by (repeat constructor).
  split; [exact Hsrc |]. split; [exact Hsizes |].
  exact (fallbackUrls_as_specified photo2 Hsrc Hsizes).
Defined.

(** C3 fails as stated for every request.  The code never passes an
    extension to the helper: it writes the extension into the source first
    and sizes the result, so the size tag goes in front of the last dot of
    the whole string.  For a size with the extension "tar.gz" the code gives
    "/img/photo.tar__100x50.gz", not the resized URL with that extension,
    "/img/photo__100x50.tar.gz".  (For a source without a dot the lists
    differ as well, there through the index [-1] passed to [slice].) *)
Lemma fallbackUrls_dotted_extension_counterexample :
  contains "." (src photoTarGz) = true
  ∧ fallbackUrls photoTarGz
    = ["/img/photo__100x50.webp"; "/img/photo.tar__100x50.gz"; "/img/photo.webp"]
  ∧ specifiedCandidateList photoTarGz
    = ["/img/photo__100x50.webp"; "/img/photo__100x50.tar.gz"; "/img/photo.webp"]
  ∧ fallbackUrls photoTarGz ≠ specifiedCandidateList photoTarGz
  ∧ fallbackUrls photoDotless = ["/img/phot__100x50.webp"; "/img/phot.webp"]
  ∧ specifiedCandidateList photoDotless
    = ["/img/photo__100x50.webp"; "/img/photo.webp"].
Proof.
  split; [reflexivity |].
  split; [vm_compute; reflexivity |].
  split; [vm_compute; reflexivity |].
  split; [vm_compute; discriminate |].
  split; vm_compute; reflexivity.
Qed.

End SpecifiedCandidates.

(** ** The URL shown and the candidates *)

Section ShownCandidate.

(** X16: the two calls keep the URL shown among the candidates.  From any
    state in which [currentSrc] is a candidate at an index not beyond
    [currentIndex], and from any state at all once an [initialize] has been
    made, every sequence of [initialize] and [onLoadFailure] calls ends in a
    state, terminal or not, in which [currentSrc] is a candidate of the
    current props at an index not beyond [currentIndex]. *)
Theorem shown_candidate_preserved (s : State) (calls : list Call) :
  (∃ i, (i ≤ currentIndex s)%nat ∧ candidates s !! i = Some (currentSrc s))
  ∨ (∃ before request after, calls = before ++ initialize request :: after) →
  currentSrc (run s calls) ∈ candidates (run s calls)
  ∧ ∃ i, (i ≤ currentIndex (run s calls))%nat
         ∧ candidates (run s calls) !! i = Some (currentSrc (run s calls)).
Proof.
  intros Hstart.
  assert (∃ i, (i ≤ currentIndex (run s calls))%nat
               ∧ candidates (run s calls) !! i
                 = Some (currentSrc (run s calls))) as (i & Hi & Hsrc).
  { destruct Hstart as [Hs | (before & request & after & ->)].
    - by apply run_shown_is_candidate.
    - unfold run. rewrite foldl_app. simpl.
      apply run_shown_is_candidate. exists 0%nat. split; [lia |].
      exact (initializeImage_currentSrc (setProps request (foldl call s before))). }
  split; [| by exists i]. apply list_elem_of_lookup. by exists i.
Qed.

Lemma shown_candidate_preserved_witness :
  ((∃ i, (i ≤ currentIndex photoLast)%nat
         ∧ candidates photoLast !! i = Some (currentSrc photoLast))
   ∨ (∃ before request after,
        [onLoadFailure; onLoadFailure] = before ++ initialize request :: after))
  ∧ currentSrc (run photoLast [onLoadFailure; onLoadFailure])
    ∈ candidates (run photoLast [onLoadFailure; onLoadFailure])
  ∧ ∃ i, (i ≤ currentIndex (run photoLast [onLoadFailure; onLoadFailure]))%nat
         ∧ candidates (run photoLast [onLoadFailure; onLoadFailure]) !! i
           = Some (currentSrc (run photoLast [onLoadFailure; onLoadFailure])).
Proof.
  assert ((∃ i, (i ≤ currentIndex photoLast)%nat
                ∧ candidates photoLast !! i = Some (currentSrc photoLast))
          ∨ (∃ before request after,
               [onLoadFailure; onLoadFailure]
               = before ++ initialize request :: after)) as Hstart.
  { left. exists 1%nat. split; [vm_compute; lia | vm_compute; reflexivity]. }
  split; [exact Hstart |].
  exact (shown_candidate_preserved photoLast [onLoadFailure; onLoadFailure] Hstart).
Defined.

(** X17: in any state in which the URL shown is the candidate at
    [currentIndex], if the next candidate is not known to be bad, a failure
    moves the index by exactly one, shows that candidate, adds one to the
    key, and writes one warning for the failed URL and one announcement for
    the new one. *)
Theorem advance_from_shown_candidate (s : State) (next : string) :
  candidates s !! currentIndex s = Some (currentSrc s) →
  candidates s !! S (currentIndex s) = Some next →
  ¬ bad (urlCache s) next →
  currentIndex (handleError s) = S (currentIndex s)
  ∧ currentSrc (handleError s) = next
  ∧ imageKey (handleError s) = S (imageKey s)
  ∧ emitted s (handleError s) = [warning (currentSrc s); trying next].
Proof.
  intros Hshown Hnext Hgood.
  assert (candidates s !! (S (currentIndex s) + 0)%nat = Some next) as Hnext0
    by by rewrite Nat.add_0_r.
  rewrite (handleError_found 0 s next Hnext0).
  - cbn [currentIndex currentSrc imageKey].
    split; [lia |]. split; [done |]. split; [done |]. by apply emitted_app.
  - unfold bad, cacheAfterFailure. intros Hbad. apply Hgood.
    rewrite lookup_insert_ne in Hbad; [done |]. intros Heq.
    rewrite Heq in Hshown.
    pose proof (NoDup_lookup _ _ _ _ (fallbackUrls_NoDup (props s)) Hshown Hnext).
    lia.
  - intros j v Hj. lia.
Qed.

Lemma advance_from_shown_candidate_witness :
  candidates (setup photo) !! currentIndex (setup photo)
  = Some (currentSrc (setup photo))
  ∧ candidates (setup photo) !! S (currentIndex (setup photo))
    = Some "/img/photo.webp"
  ∧ ¬ bad (urlCache (setup photo)) "/img/photo.webp"
  ∧ currentIndex (handleError (setup photo)) = S (currentIndex (setup photo))
  ∧ currentSrc (handleError (setup photo)) = "/img/photo.webp"
  ∧ imageKey (handleError (setup photo)) = S (imageKey (setup photo))
  ∧ emitted (setup photo) (handleError (setup photo))
    = [warning (currentSrc (setup photo)); trying "/img/photo.webp"].
Proof.
  assert (candidates (setup photo) !! currentIndex (setup photo)
          = Some (currentSrc (setup photo))) as Hshown
    by (vm_compute; reflexivity).
  assert (candidates (setup photo) !! S (currentIndex (setup photo))
          = Some "/img/photo.webp") as Hnext
    by (vm_compute; reflexivity).
  assert (¬ bad (urlCache (setup photo)) "/img/photo.webp") as Hgood
    by (unfold bad; vm_compute; discriminate).
  split; [exact Hshown |]. split; [exact Hnext |]. split; [exact Hgood |].
  exact (advance_from_shown_candidate (setup photo) "/img/photo.webp"
           Hshown Hnext Hgood).
Defined.

End ShownCandidate.
